(** * Doc-section parser and declaration correlator of [cli/daemon/dash/ai/parser.go]

    A shallow embedding of [parseDocSection], [parseErrorDoc], [parsePathDoc],
    [deref] and the correlation loop of [parseCode], with the properties of
    their specification settled against it.

    Go strings are byte strings: they are modelled as [string] (a list of
    8-bit [ascii]).  Go [int] indices are modelled as [Z]; every slice or
    index expression of the source is a fallible operation that yields [None]
    where Go would panic with an index out of range. *)

From Stdlib Require Import ZArith Ascii String Lia Bool.
From stdpp Require Import base option list strings gmap.

Local Open Scope Z_scope.

(** ** Go's [strings] package, as far as the source uses it *)

Module GoStrings.

(** The line break ["\n"], the only separator the source splits and joins on. *)
Definition LF : ascii := "010"%char.
Definition colon : ascii := ":"%char.

Definition len (s : string) : Z := Z.of_nat (String.length s).

(** [strings.HasPrefix(s, prefix)]. *)
Fixpoint HasPrefix (s prefix : string) : bool :=
  match prefix, s with
  | EmptyString, _ => true
  | String p prefix', String c s' => Ascii.eqb c p && HasPrefix s' prefix'
  | String _ _, EmptyString => false
  end.

(** [strings.TrimPrefix(s, prefix)]: [s] without the prefix when it has it. *)
Definition TrimPrefix (s prefix : string) : string :=
  if HasPrefix s prefix
  then String.substring (String.length prefix)
                        (String.length s - String.length prefix) s
  else s.

(** [strings.Split(s, sep)] for a one-byte separator: the pieces between
    the occurrences of [sep]; always at least one piece. *)
Fixpoint Split (s : string) (sep : ascii) : list string :=
  match s with
  | EmptyString => [EmptyString]
  | String c s' =>
      if Ascii.eqb c sep then EmptyString :: Split s' sep
      else match Split s' sep with
           | piece :: pieces => String c piece :: pieces
           | [] => [String c EmptyString]
           end
  end.

(** [strings.Join(elems, sep)]. *)
Fixpoint Join (elems : list string) (sep : ascii) : string :=
  match elems with
  | [] => EmptyString
  | [e] => e
  | e :: rest => e +:+ String sep (Join rest sep)
  end.

(** [strings.Cut(s, sep)] for a one-byte separator: the text before and
    after the first [sep], and whether [sep] occurs. *)
Fixpoint Cut (s : string) (sep : ascii) : string * string * bool :=
  match s with
  | EmptyString => (EmptyString, EmptyString, false)
  | String c s' =>
      if Ascii.eqb c sep then (EmptyString, s', true)
      else let '(before, after, found) := Cut s' sep in
           (String c before, after, found)
  end.

(** *** [strings.TrimSpace]

    [TrimSpace] removes every leading and trailing white-space rune, as
    [unicode.IsSpace] defines it.  On a byte string that is: the six ASCII
    spaces, and the UTF-8 encodings of U+0085, U+00A0 (two bytes), U+1680,
    U+2000..U+200A, U+2028, U+2029, U+202F, U+205F and U+3000 (three
    bytes).  Any other byte sequence, valid or not, decodes to a rune that
    is not a space. *)

Definition byte (c : ascii) : N := N_of_ascii c.

(** ['\t', '\n', '\v', '\f', '\r', ' ']. *)
Definition asciiSpace (c : ascii) : bool :=
  ((9 <=? byte c) && (byte c <=? 13) || (byte c =? 32))%N.

Definition space2 (a b : ascii) : bool :=
  ((byte a =? 194) && ((byte b =? 133) || (byte b =? 160)))%N.

Definition space3 (a b c : ascii) : bool :=
  ((byte a =? 225) && (byte b =? 154) && (byte c =? 128)
   || (byte a =? 226) && (byte b =? 128)
      && ((128 <=? byte c) && (byte c <=? 138)
          || (byte c =? 168) || (byte c =? 169) || (byte c =? 175))
   || (byte a =? 226) && (byte b =? 129) && (byte c =? 159)
   || (byte a =? 227) && (byte b =? 128) && (byte c =? 128))%N.

Section Strip.
(** One- two- and three-byte white space, read in the direction of travel. *)
Variable w1 : ascii → bool.
Variable w2 : ascii → ascii → bool.
Variable w3 : ascii → ascii → ascii → bool.

(** The bytes left after one white-space rune at the head, if there is one. *)
Definition peel (l : list ascii) : option (list ascii) :=
  match l with
  | a :: r1 =>
      if w1 a then Some r1
      else match r1 with
           | b :: r2 =>
               if w2 a b then Some r2
               else match r2 with
                    | c :: r3 => if w3 a b c then Some r3 else None
                    | [] => None
                    end
           | [] => None
           end
  | [] => None
  end.

Fixpoint strip (l : list ascii) : list ascii :=
  match l with
  | a :: r1 =>
      if w1 a then strip r1
      else match r1 with
           | b :: r2 =>
               if w2 a b then strip r2
               else match r2 with
                    | c :: r3 => if w3 a b c then strip r3 else l
                    | [] => l
                    end
           | [] => l
           end
  | [] => []
  end.
End Strip.

Definition trimLeft : list ascii → list ascii :=
  strip asciiSpace space2 space3.

(** From the end the bytes of a rune are met last byte first. *)
Definition trimRight (l : list ascii) : list ascii :=
  rev (strip asciiSpace (λ b a, space2 a b) (λ c b a, space3 a b c) (rev l)).

Definition TrimSpace (s : string) : string :=
  string_of_list_ascii (trimRight (trimLeft (list_ascii_of_string s))).

End GoStrings.

Import GoStrings.

(** ** Slices *)

(** [l[i]]: panics outside [0 <= i < len(l)]. *)
Definition index {A} (l : list A) (i : Z) : option A :=
  if i <? 0 then None else l !! Z.to_nat i.

(** [l[i] = x]: panics outside [0 <= i < len(l)]. *)
Definition assign {A} (l : list A) (i : Z) (x : A) : option (list A) :=
  if (0 <=? i) && (i <? Z.of_nat (length l))
  then Some (<[Z.to_nat i := x]> l) else None.

(** [l[lo:hi]]: panics unless [0 <= lo <= hi <= len(l)]. *)
Definition slice {A} (l : list A) (lo hi : Z) : option (list A) :=
  if (0 <=? lo) && (lo <=? hi) && (hi <=? Z.of_nat (length l))
  then Some (take (Z.to_nat (hi - lo)) (drop (Z.to_nat lo) l)) else None.

(** [s[:n]] on a string. *)
Definition strPrefix (s : string) (n : Z) : option string :=
  if (0 <=? n) && (n <=? len s)
  then Some (String.substring 0 (Z.to_nat n) s) else None.

(** ** [parseDocSection] *)

Module DocEntry.
Record t := mk { Key : string; Doc : string }.
End DocEntry.

(** The state of the scanning loop: the slice [lines], which the loop
    overwrites in place, and the two bounds. *)
Record scan := mkScan { lines : list string; start : Z; end_ : Z }.

(** What an iteration does to the loop: go on to the next index ([continue]
    or the end of the body), or leave the loop ([break] at the level of the
    [for]). *)
Inductive flow := Next | Break.

(** [strings.HasPrefix(strings.TrimSpace(line), section+":")]. *)
Definition labelLine (section line : string) : bool :=
  HasPrefix (TrimSpace line) (section +:+ ":").

(** The [switch] of the source: the cases ["-"] and [""] do nothing, the
    default case sets [end = i - 1]; its [break] leaves the [switch] only. *)
Definition switchPrefix (i : Z) (two : string) (st : scan) : scan :=
  let t := TrimSpace two in
  if String.eqb t "-" || String.eqb t "" then st
  else mkScan (lines st) (start st) (i - 1).

(** The two statements after the [if] chain:
    [lines[i] = strings.TrimSpace(line)] and the test
    [line == "" && lines[i-1] == ""], whose right operand is only read when
    the left one holds. *)
Definition trimAndTest (i : Z) (line : string) (st : scan) : option (flow * scan) :=
  ls ← assign (lines st) i (TrimSpace line);
  let st' := mkScan ls (start st) (end_ st) in
  if String.eqb line "" then
    prev ← index ls (i - 1);
    if String.eqb prev "" then Some (Break, st') else Some (Next, st')
  else Some (Next, st').

(** One iteration of [for i, line := range lines]. *)
Definition scanStep (section : string) (i : Z) (line : string) (st : scan)
  : option (flow * scan) :=
  let st := mkScan (lines st) (start st) i in
  if labelLine section line then
    trimAndTest i line (mkScan (lines st) i (end_ st))
  else if start st =? -1 then
    Some (Next, st)
  else if 2 <? len line then
    two ← strPrefix line 2;
    trimAndTest i line (switchPrefix i two st)
  else
    trimAndTest i line st.

(** The loop.  [range] fixes the length of [lines] on entry and reads
    [lines[i]] at the start of iteration [i]; the body writes index [i] only,
    and after that read, so [line] is always the line of the input: the loop
    runs over the input lines [rest] that are left, at index [i]. *)
Fixpoint scanLoop (section : string) (i : Z) (rest : list string) (st : scan)
  : option scan :=
  match rest with
  | [] => Some st
  | line :: rest' =>
      r ← scanStep section i line st;
      match r with
      | (Break, st') => Some st'
      | (Next, st') => scanLoop section (i + 1) rest' st'
      end
  end.

(** [errs[len(errs)-1].Doc += "\n" + line]. *)
Definition appendDoc (errs : list DocEntry.t) (line : string) : option (list DocEntry.t) :=
  let k := Z.of_nat (length errs) - 1 in
  e ← index errs k;
  assign errs k (DocEntry.mk (DocEntry.Key e) (DocEntry.Doc e +:+ String LF line)).

(** The body of the second loop. *)
Definition entryStep (errs : list DocEntry.t) (line : string) : option (list DocEntry.t) :=
  let '(key, doc, ok) := Cut line colon in
  let key := TrimPrefix key "-" in
  let key := TrimSpace key in
  if ok then Some (errs ++ [DocEntry.mk key (TrimSpace doc)])
  else if (0 <? Z.of_nat (length errs)) && negb (String.eqb line "") then appendDoc errs line
  else Some errs.

Fixpoint entryLoop (errs : list DocEntry.t) (ls : list string) : option (list DocEntry.t) :=
  match ls with
  | [] => Some errs
  | line :: ls' => errs' ← entryStep errs line; entryLoop errs' ls'
  end.

(** What follows the first loop, on the lines of the text. *)
Definition parseLines (doc section : string) (lines0 : list string)
  : option (string * list DocEntry.t) :=
  st ← scanLoop section 0 lines0 (mkScan lines0 (-1) (-1));
  if start st =? -1 then Some (doc, [])
  else
    body ← slice (lines st) (start st + 1) (end_ st + 1);
    errs ← entryLoop [] body;
    before ← slice (lines st) 0 (start st);
    Some (Join before LF, errs).

Definition parseDocSection (doc section : string) : option (string * list DocEntry.t) :=
  parseLines doc section (Split doc LF).

(** ** The annotation mappers *)

(** Modelled from the spec: the constant [ErrDocPrefix] is declared outside
    the file; the specification gives the label ["errors"]. *)
Definition ErrDocPrefix : string := "errors".

(** Modelled from the spec: the constant [PathDocPrefix] is declared outside
    the file; the specification gives the label ["path params"]. *)
Definition PathDocPrefix : string := "path params".

Module ErrorInput.
Record t := mk { Code : string; Doc : string }.
End ErrorInput.

Definition parseErrorDoc (doc : string) : option (string * list ErrorInput.t) :=
  match parseDocSection doc ErrDocPrefix with
  | Some (doc, errs) =>
      Some (doc, map (λ e, ErrorInput.mk (DocEntry.Key e) (DocEntry.Doc e)) errs)
  | None => None
  end.

(** [rtn[d.Key] = d.Doc] for each entry in turn: a later entry overwrites an
    earlier one with the same key. *)
Definition parsePathDoc (doc : string) : option (string * gmap string string) :=
  match parseDocSection doc PathDocPrefix with
  | Some (doc, docs) =>
      Some (doc, foldl (λ rtn d, <[DocEntry.Key d := DocEntry.Doc d]> rtn) ∅ docs)
  | None => None
  end.

(** ** The declarations handed over by the parsing collaborator *)

Module StructField.
Record t := mk { Name : string; Type_ : string; Doc : string }.
End StructField.

(** [schema.Type], as far as the source looks into it: [String_] is the
    rendering [nr.String()] of a named type and [DeclInfoDoc] its
    [nr.DeclInfo.Doc]; [OtherType] stands for every type that is neither a
    pointer, a named type nor a struct, and for the absent type [nil]. *)
Inductive schemaType :=
| PointerType (Elem : schemaType)
| NamedType (String_ : string) (DeclInfoDoc : string)
| StructType (Fields : list StructField.t)
| OtherType.

(** [deref]: the loop unwraps pointer types until another type is met. *)
Fixpoint deref (p : schemaType) : schemaType :=
  match p with
  | PointerType Elem => deref Elem
  | _ => p
  end.

(** [apienc.ParameterEncoding]; [Type_] is the rendering [f.Type.String()]
    ([Type] is a keyword here). *)
Module ParameterEncoding.
Record t := mk
  { SrcName : string; WireName : string; Location : string;
    Type_ : string; Doc : string }.
End ParameterEncoding.

(** [api.Endpoint]: [File] is [r.File.FSPath]; [RequestEncoding] holds the
    [AllParameters()] of each request encoding and [ResponseEncoding] those
    of the response encoding, [None] for [nil]. *)
Module Endpoint.
Record t {PathT : Type} := mk
  { File : string; Doc : string; Name : string;
    HTTPMethods : list string; Access : string; Path : PathT;
    Request : schemaType; Response : schemaType;
    RequestEncoding : list (list ParameterEncoding.t);
    ResponseEncoding : option (list ParameterEncoding.t) }.
Arguments t : clear implicits.
Arguments mk {PathT}.
End Endpoint.

(** [schema.TypeDecl]: [File] is [d.File.FSPath], [Doc] is [d.Info.Doc]. *)
Module TypeDecl.
Record t := mk { File : string; Name : string; Type_ : schemaType; Doc : string }.
End TypeDecl.

(** What [pass.Resources()] and [schemaParser.ParsedDecls()] yield; each
    [switch] of the source has one case. *)
Inductive resource {PathT : Type} :=
| EndpointResource (r : Endpoint.t PathT)
| OtherResource.
Arguments resource : clear implicits.

Inductive decl :=
| TypeDeclaration (d : TypeDecl.t)
| OtherDeclaration.

(** ** The output records *)

Module TypeFieldInput.
Record t := mk
  { Name : string; WireName : string; Location : string;
    Type_ : string; Doc : string }.
End TypeFieldInput.

Module TypeInput.
Record t := mk { Name : string; Doc : string; Fields : list TypeFieldInput.t }.
End TypeInput.

(** [EndpointInput], with the fields the source writes. *)
Module EndpointInput.
Record t {PathSegments : Type} := mk
  { Doc : string; Errors : list ErrorInput.t; Name : string; Method : string;
    Visibility : string; Language : string; Path : PathSegments;
    Types : list TypeInput.t; RequestType : string; ResponseType : string }.
Arguments t : clear implicits.
Arguments mk {PathSegments}.
End EndpointInput.

Module SyncResult.
Record t {ServiceInput : Type} := mk
  { Services : list ServiceInput; Errors : list string }.
Arguments t : clear implicits.
Arguments mk {ServiceInput}.
End SyncResult.

(** ** Panics and the parsing session *)

(** The values a panic carries here: the bailout of the parsing collaborator
    ([perr]), and a run-time error of Go (index out of range, nil pointer). *)
Inductive panicValue := Bailout | RuntimeError.

Inductive result (A : Type) :=
| Ok (a : A)
| Panic (v : panicValue).
Arguments Ok {A}.
Arguments Panic {A}.

(** A call into the parsing collaborator reports diagnostics to the list
    [errs], and then returns or bails out. *)
Inductive collab (A : Type) :=
| Returns (diags : list string) (a : A)
| BailsOut (diags : list string).
Arguments Returns {A}.
Arguments BailsOut {A}.

(** A pointer to an [EndpointInput]. *)
Definition loc := nat.

(** Modelled from the spec: the overlay provider ([newOverlays],
    [overlays.get], [overlays.validationErrors]) is declared outside the
    file.  The specification describes it as the mapping from a source file
    path to a mutable output record, with a way to translate the diagnostics
    of the parser into validation errors. *)
Record overlay := mkOverlay { endpoint : loc }.

Record overlays := mkOverlays
  { files : gmap string overlay;
    validationErrors : list string → list string }.

(** [overlays.get(path)]: the overlay and [ok], or [!ok]. *)
Definition get (o : overlays) (path : string) : option overlay := files o !! path.

Section ParseCode.
Context {PathT PathSegments ServiceInput : Type}.

(** [toPathSegments] is declared outside the file and is taken as given. *)
Variable toPathSegments : PathT → gmap string string → PathSegments.

(** Modelled from the spec: [perr.CatchBailout] is declared outside the file.
    The specification says that an abort of the parsing collaborator is caught
    at this boundary.  What becomes of a recovered value that is no such
    abort is not said: [reraise] tells whether it is raised again. *)
Variable reraise : bool.

Definition CatchBailout (recovered : option panicValue) : option panicValue :=
  match recovered with
  | Some Bailout => None
  | Some RuntimeError => if reraise then Some RuntimeError else None
  | None => None
  end.

Abbreviation EndpointInputT := (EndpointInput.t PathSegments).

(** The state the pass works on: the output records behind the pointers of
    the overlays, and the diagnostics list [errs]. *)
Record session := mkSession
  { heap : gmap loc EndpointInputT; errs : list string }.

(** State passing with panics: a panic keeps the state reached. *)
Definition M (A : Type) : Type := session → session * result A.

Definition ret {A} (a : A) : M A := λ s, (s, Ok a).

Definition bind {A B} (m : M A) (k : A → M B) : M B :=
  λ s, match m s with
       | (s', Ok a) => k a s'
       | (s', Panic v) => (s', Panic v)
       end.

Notation "'do' x <- m ; k" := (bind m (λ x, k))
  (at level 10, x name, m at level 100, k at level 200).
Notation "m ;; k" := (bind m (λ _, k))
  (at level 100, k at level 200, right associativity).

(** A fallible expression of the source: its panic is a run-time error. *)
Definition try {A} (o : option A) : M A :=
  λ s, match o with Some a => (s, Ok a) | None => (s, Panic RuntimeError) end.

(** Reading and writing through a pointer [e]; a pointer to nothing panics. *)
Definition load {A} (e : loc) (field : EndpointInputT → A) : M A :=
  λ s, match heap s !! e with
       | Some x => (s, Ok (field x))
       | None => (s, Panic RuntimeError)
       end.

Definition store (e : loc) (set : EndpointInputT → EndpointInputT) : M unit :=
  λ s, match heap s !! e with
       | Some x => (mkSession (<[e := set x]> (heap s)) (errs s), Ok tt)
       | None => (s, Panic RuntimeError)
       end.

Definition call {A} (c : collab A) : M A :=
  λ s, match c with
       | Returns diags a => (mkSession (heap s) (errs s ++ diags), Ok a)
       | BailsOut diags => (mkSession (heap s) (errs s ++ diags), Panic Bailout)
       end.

Fixpoint forEach {A} (l : list A) (body : A → M unit) : M unit :=
  match l with
  | [] => ret tt
  | x :: l' => body x ;; forEach l' body
  end.

(** The field assignments [e.F = v]. *)
Definition setDoc (v : string) (x : EndpointInputT) : EndpointInputT :=
  let 'EndpointInput.mk _ a2 a3 a4 a5 a6 a7 a8 a9 a10 := x in
  EndpointInput.mk v a2 a3 a4 a5 a6 a7 a8 a9 a10.
Definition setErrors (v : list ErrorInput.t) (x : EndpointInputT) : EndpointInputT :=
  let 'EndpointInput.mk a1 _ a3 a4 a5 a6 a7 a8 a9 a10 := x in
  EndpointInput.mk a1 v a3 a4 a5 a6 a7 a8 a9 a10.
Definition setName (v : string) (x : EndpointInputT) : EndpointInputT :=
  let 'EndpointInput.mk a1 a2 _ a4 a5 a6 a7 a8 a9 a10 := x in
  EndpointInput.mk a1 a2 v a4 a5 a6 a7 a8 a9 a10.
Definition setMethod (v : string) (x : EndpointInputT) : EndpointInputT :=
  let 'EndpointInput.mk a1 a2 a3 _ a5 a6 a7 a8 a9 a10 := x in
  EndpointInput.mk a1 a2 a3 v a5 a6 a7 a8 a9 a10.
Definition setVisibility (v : string) (x : EndpointInputT) : EndpointInputT :=
  let 'EndpointInput.mk a1 a2 a3 a4 _ a6 a7 a8 a9 a10 := x in
  EndpointInput.mk a1 a2 a3 a4 v a6 a7 a8 a9 a10.
Definition setLanguage (v : string) (x : EndpointInputT) : EndpointInputT :=
  let 'EndpointInput.mk a1 a2 a3 a4 a5 _ a7 a8 a9 a10 := x in
  EndpointInput.mk a1 a2 a3 a4 a5 v a7 a8 a9 a10.
Definition setPath (v : PathSegments) (x : EndpointInputT) : EndpointInputT :=
  let 'EndpointInput.mk a1 a2 a3 a4 a5 a6 _ a8 a9 a10 := x in
  EndpointInput.mk a1 a2 a3 a4 a5 a6 v a8 a9 a10.
Definition setTypes (v : list TypeInput.t) (x : EndpointInputT) : EndpointInputT :=
  let 'EndpointInput.mk a1 a2 a3 a4 a5 a6 a7 _ a9 a10 := x in
  EndpointInput.mk a1 a2 a3 a4 a5 a6 a7 v a9 a10.
Definition setRequestType (v : string) (x : EndpointInputT) : EndpointInputT :=
  let 'EndpointInput.mk a1 a2 a3 a4 a5 a6 a7 a8 _ a10 := x in
  EndpointInput.mk a1 a2 a3 a4 a5 a6 a7 a8 v a10.
Definition setResponseType (v : string) (x : EndpointInputT) : EndpointInputT :=
  let 'EndpointInput.mk a1 a2 a3 a4 a5 a6 a7 a8 a9 _ := x in
  EndpointInput.mk a1 a2 a3 a4 a5 a6 a7 a8 a9 v.

(** The [TypeFieldInput] of a wire-encoded parameter. *)
Definition encodedField (f : ParameterEncoding.t) : TypeFieldInput.t :=
  TypeFieldInput.mk (ParameterEncoding.SrcName f) (ParameterEncoding.WireName f)
    (ParameterEncoding.Location f) (ParameterEncoding.Type_ f)
    (TrimSpace (ParameterEncoding.Doc f)).

(** The [TypeFieldInput] of a struct field: [WireName] and [Location] keep
    their zero value. *)
Definition structField (f : StructField.t) : TypeFieldInput.t :=
  TypeFieldInput.mk (StructField.Name f) "" "" (StructField.Type_ f)
    (TrimSpace (StructField.Doc f)).

(** [e.Types = append(e.Types, t)]. *)
Definition appendType (e : loc) (t : TypeInput.t) : M unit :=
  do types <- load e EndpointInput.Types;
  store e (setTypes (types ++ [t])).

(** The [case *api.Endpoint] of the first [switch]. *)
Definition correlateEndpoint (o : overlays) (r : Endpoint.t PathT) : M unit :=
  match get o (Endpoint.File r) with
  | None => ret tt
  | Some ov =>
      let e := endpoint ov in
      do parsed <- try (parseErrorDoc (Endpoint.Doc r));
      store e (setDoc parsed.1) ;;
      store e (setErrors parsed.2) ;;
      do doc <- load e EndpointInput.Doc;
      do parsed <- try (parsePathDoc doc);
      let pathDocs := parsed.2 in
      store e (setDoc parsed.1) ;;
      store e (setName (Endpoint.Name r)) ;;
      do method <- try (index (Endpoint.HTTPMethods r) 0);
      store e (setMethod method) ;;
      store e (setVisibility (Endpoint.Access r)) ;;
      store e (setLanguage "GO") ;;
      store e (setPath (toPathSegments (Endpoint.Path r) pathDocs)) ;;
      store e (setTypes []) ;;
      match deref (Endpoint.Request r) with
      | NamedType name doc =>
          store e (setRequestType name) ;;
          if 0 <? Z.of_nat (length (Endpoint.RequestEncoding r)) then
            do params <- try (index (Endpoint.RequestEncoding r) 0);
            appendType e (TypeInput.mk name (TrimSpace doc) (map encodedField params))
          else ret tt
      | _ => ret tt
      end ;;
      match deref (Endpoint.Response r) with
      | NamedType name doc =>
          store e (setResponseType name) ;;
          match Endpoint.ResponseEncoding r with
          | Some params =>
              appendType e (TypeInput.mk name (TrimSpace doc) (map encodedField params))
          | None => ret tt
          end
      | _ => ret tt
      end
  end.

(** [slices.ContainsFunc(e.Types, func(t) bool { return t.Name == name })]. *)
Definition containsName (types : list TypeInput.t) (name : string) : bool :=
  existsb (λ t, String.eqb (TypeInput.Name t) name) types.

(** The [case *schema.TypeDecl] of the second [switch]. *)
Definition correlateTypeDecl (o : overlays) (d : TypeDecl.t) : M unit :=
  match TypeDecl.Type_ d with
  | StructType fields =>
      match get o (TypeDecl.File d) with
      | None => ret tt
      | Some ov =>
          let e := endpoint ov in
          do types <- load e EndpointInput.Types;
          if containsName types (TypeDecl.Name d) then ret tt
          else appendType e (TypeInput.mk (TypeDecl.Name d)
                               (TrimSpace (TypeDecl.Doc d)) (map structField fields))
      end
  | _ => ret tt
  end.

Definition correlateResource (o : overlays) (r : resource PathT) : M unit :=
  match r with
  | EndpointResource r => correlateEndpoint o r
  | OtherResource => ret tt
  end.

Definition correlateDecl (o : overlays) (d : decl) : M unit :=
  match d with
  | TypeDeclaration d => correlateTypeDecl o d
  | OtherDeclaration => ret tt
  end.

(** One package of the pass: what [apis.Parser.Run] does, and the
    declarations that [pass.Resources()] and [schemaParser.ParsedDecls()]
    then hold. *)
Definition packagePass : Type := collab (list (resource PathT) * list decl).

Definition correlatePackage (o : overlays) (p : packagePass) : M unit :=
  do found <- call p;
  forEach found.1 (correlateResource o) ;;
  forEach found.2 (correlateDecl o).

(** The body of [parseCode] after the deferred function is set up: the
    loading of the packages, then the packages in the order the loop meets
    them, then [return &SyncResult{Services: services}, nil]. *)
Definition pass (o : overlays) (services : list ServiceInput)
    (loading : collab unit) (pkgs : list packagePass)
  : M (SyncResult.t ServiceInput) :=
  call loading ;;
  forEach pkgs (correlatePackage o) ;;
  ret (SyncResult.mk services []).

(** What the caller of [parseCode] observes: the two results, or a panic. *)
Inductive outcome :=
| Returned (rtn : option (SyncResult.t ServiceInput)) (err : option string)
| Panicked (v : panicValue).

(** [parseCode].  [newOverlays] is the result of the call of that name, an
    error or the overlays; an error is returned before the deferred function
    exists.  The deferred function recovers, fills [rtn] in when the pass has
    not returned, and sets [rtn.Errors]. *)
Definition parseCode (newOverlays : string + overlays)
    (services : list ServiceInput) (loading : collab unit)
    (pkgs : list packagePass) (h : gmap loc EndpointInputT)
  : gmap loc EndpointInputT * outcome :=
  match newOverlays with
  | inl err => (h, Returned None (Some err))
  | inr o =>
      let '(s, r) := pass o services loading pkgs (mkSession h []) in
      let '(rtn, recovered) :=
        match r with
        | Ok rtn => (Some rtn, None)
        | Panic v => (None, Some v)
        end in
      match CatchBailout recovered with
      | Some v => (heap s, Panicked v)
      | None =>
          let rtn := default (SyncResult.mk services []) rtn in
          (heap s,
           Returned (Some (SyncResult.mk (SyncResult.Services rtn)
                             (validationErrors o (errs s)))) None)
      end
  end.

End ParseCode.

(** ** The scanning loop without the slice *)

(** Whether the [switch] of the source takes its default case on [line]. *)
Definition terminator (line : string) : bool :=
  (2 <? len line) &&
  negb (String.eqb (TrimSpace (String.substring 0 2 line)) "-"
        || String.eqb (TrimSpace (String.substring 0 2 line)) "").

(** What [scanLoop] writes at the indices it visits, and the bounds it
    ends with; [prev] is what [lines[i-1]] holds. *)
Fixpoint scanPure (section : string) (i : Z) (prev : string) (s e : Z)
    (rest : list string) : list string * Z * Z :=
  match rest with
  | [] => ([], s, e)
  | line :: rest' =>
      if labelLine section line then
        let '(out, s', e') := scanPure section (i + 1) (TrimSpace line) i i rest' in
        (TrimSpace line :: out, s', e')
      else if s =? -1 then
        let '(out, s', e') := scanPure section (i + 1) line s i rest' in
        (line :: out, s', e')
      else
        let e1 := if terminator line then i - 1 else i in
        if String.eqb line "" && String.eqb prev "" then ([TrimSpace line], s, e1)
        else
          let '(out, s', e') := scanPure section (i + 1) (TrimSpace line) s e1 rest' in
          (TrimSpace line :: out, s', e')
  end.

(** ** Statements about the pass *)

Section Triples.
Context {PathSegments : Type}.

(** [m] started in a state of [P] does not panic and ends in a state of [Q]. *)
Definition triple {A} (P : @session PathSegments → Prop) (m : M A)
    (Q : A → @session PathSegments → Prop) : Prop :=
  ∀ s, P s → ∃ s' a, m s = (s', Ok a) ∧ Q a s'.

(** The pointer [e] points to a record of [P]. *)
Definition holds (e : loc) (P : EndpointInput.t PathSegments → Prop)
    (s : @session PathSegments) : Prop :=
  ∃ x, heap s !! e = Some x ∧ P x.

(** [m] reports no diagnostics and does not bail out. *)
Definition quiet {A} (m : @M PathSegments A) : Prop :=
  ∀ s, errs (m s).1 = errs s ∧ (m s).2 ≠ Panic Bailout.
End Triples.

(** The diagnostics the collaborator reports until it bails out. *)
Fixpoint reportedBy {A} (calls : list (collab A)) : list string :=
  match calls with
  | [] => []
  | Returns diags _ :: calls' => diags ++ reportedBy calls'
  | BailsOut diags :: _ => diags
  end.

Definition reported {A} (loading : collab unit) (pkgs : list (collab A)) : list string :=
  match loading with
  | Returns diags _ => diags ++ reportedBy pkgs
  | BailsOut diags => diags
  end.

(** ** The words of the specification *)

(** A string without a line break: [Split] leaves it whole. *)
Definition oneLine (s : string) : Prop := Split s LF = [s].

(** A document up to the trimming of its lines. *)
Definition normalize (doc : string) : string :=
  Join (map TrimSpace (Split doc LF)) LF.

(** The bounds of the section as the loop of [parseDocSection] leaves them:
    the index of the label line and of the last line consumed; [None] when
    no label is found. *)
Definition sectionBounds (doc section : string) : option (Z * Z) :=
  let lines0 := Split doc LF in
  match scanLoop section 0 lines0 (mkScan lines0 (-1) (-1)) with
  | Some st => if start st =? -1 then None else Some (start st, end_ st)
  | None => None
  end.

(** The lines of the section, the label line through the last consumed line. *)
Definition consumedSection (doc section : string) : list string :=
  match sectionBounds doc section with
  | Some (s, e) => take (Z.to_nat (e + 1 - s)) (drop (Z.to_nat s) (Split doc LF))
  | None => []
  end.


(** The text of some lines, up to trimming, blank lines and order. *)
Definition textOf (ls : list string) : list string :=
  filter (λ l, l ≠ "") (map TrimSpace ls).

(** The round trip in the words of the specification, in its weakest
    reading: the lines of the last remainder together with the lines of the
    two consumed sections are, up to trimming, blank lines and order, the
    lines of the document. *)
Definition roundTrip (doc : string) : Prop :=
  ∃ r1 errs r2 paths,
    parseErrorDoc doc = Some (r1, errs)
    ∧ parsePathDoc r1 = Some (r2, paths)
    ∧ textOf (Split r2 LF ++ consumedSection doc ErrDocPrefix
              ++ consumedSection r1 PathDocPrefix)
      ≡ₚ textOf (Split doc LF).

(** The lines [tail] are kept as they are at the end of the remainder [r]. *)
Definition keepsTail (tail : list string) (r : string) : Prop :=
  ∃ before, Split r LF = before ++ tail.

(** ** Inputs of the examples *)

(** The document of the example of the specification. *)
Definition docExample : string :=
  Join ["Does X."; "errors:"; "- NotFound: no such thing"; "- Internal: oops";
        ""; "more text"] LF.

(** A section closed by two blank lines, with text after them. *)
Definition docBlank : string :=
  Join ["a"; "errors:"; "- A: b"; ""; ""; "tail"] LF.

(** A section followed by a line that is neither a list item nor indented,
    and then by another list item; and the same without that last item. *)
Definition docProse : string :=
  Join ["errors:"; "- A: b"; "plain text"; "- C: d"] LF.

Definition docProseLast : string :=
  Join ["errors:"; "- A: b"; "plain text"] LF.

(** An endpoint whose request and response are the same named type [Foo],
    wire-encoded both ways, declared in a file that a target claims. *)
Definition fooParams : list ParameterEncoding.t :=
  [ParameterEncoding.mk "ID" "id" "query" "string" " the id "].

Definition echo : Endpoint.t (list string) :=
  Endpoint.mk "svc/echo.go" "Echo echoes." "Echo" ["GET"; "POST"] "public" ["echo"]
    (PointerType (NamedType "Foo" "Foo is a message."))
    (PointerType (NamedType "Foo" "Foo is a message."))
    [fooParams] (Some fooParams).

(** The same endpoint in a file that no target claims. *)
Definition stray : Endpoint.t (list string) :=
  Endpoint.mk "svc/other.go" "Echo echoes." "Echo" ["GET"; "POST"] "public" ["echo"]
    (PointerType (NamedType "Foo" "Foo is a message."))
    (PointerType (NamedType "Foo" "Foo is a message."))
    [fooParams] (Some fooParams).

Definition strayDecl : TypeDecl.t :=
  TypeDecl.mk "svc/other.go" "Bar" (StructType [StructField.mk "N" "int" ""]) "".

Definition blank : EndpointInput.t (list string) :=
  EndpointInput.mk "" [] "" "" "" "" [] [] "" "".

Definition oneTarget : overlays :=
  mkOverlays {["svc/echo.go" := mkOverlay 0%nat]} (λ diags, diags).

Definition oneRecord : gmap loc (EndpointInput.t (list string)) := {[0%nat := blank]}.

Definition keepPath (p : list string) (docs : gmap string string) : list string := p.

(** A pass over two packages in which the collaborator bails out on the
    second one. *)
Definition abortedRun : list (collab (list (resource (list string)) * list decl)) :=
  [Returns ["a.go: unused import"] ([EndpointResource echo], []);
   BailsOut ["b.go: syntax error"]].

(** * Auxiliary definitions *)

(** Whether [strings.Cut(line, ":")] finds a colon, and the key the second
    loop of [parseDocSection] then makes of the line. *)
Definition hasColon (line : string) : bool := (Cut line colon).2.

Definition keyOf (line : string) : string :=
  TrimSpace (TrimPrefix (Cut line colon).1.1 "-").

(** The bytes of a string. *)
Definition bytes (s : string) : list ascii := list_ascii_of_string s.

(** [errIDToCode]: the HTTP status of each error identifier. *)
Definition errIDToCode : gmap string Z :=
  list_to_map
    [("OK", 200); ("Canceled", 499); ("Unknown", 500); ("InvalidArgument", 400);
     ("DeadlineExceeded", 504); ("NotFound", 404); ("AlreadyExists", 409);
     ("PermissionDenied", 403); ("ResourceExhausted", 429);
     ("FailedPrecondition", 400); ("Aborted", 409); ("OutOfRange", 400);
     ("Unimplemented", 501); ("Internal", 500); ("Unavailable", 503);
     ("DataLoss", 500); ("Unauthenticated", 401)].

Section Closed.
Context {PathT PathSegments : Type}.

(** The session [s] with the record [x] behind the pointer [e]. *)
Definition put (e : loc) (x : EndpointInput.t PathSegments)
    (s : @session PathSegments) : @session PathSegments :=
  mkSession (<[e := x]> (heap s)) (errs s).

(** The records that the endpoint case appends for the request and for the
    response. *)
Definition requestTypes (r : Endpoint.t PathT) : list TypeInput.t :=
  match deref (Endpoint.Request r) with
  | NamedType name doc =>
      match Endpoint.RequestEncoding r with
      | params :: _ => [TypeInput.mk name (TrimSpace doc) (map encodedField params)]
      | [] => []
      end
  | _ => []
  end.

Definition responseTypes (r : Endpoint.t PathT) : list TypeInput.t :=
  match deref (Endpoint.Response r) with
  | NamedType name doc =>
      match Endpoint.ResponseEncoding r with
      | Some params => [TypeInput.mk name (TrimSpace doc) (map encodedField params)]
      | None => []
      end
  | _ => []
  end.

(** The name of a type that is a named type behind its pointers, and
    [old] for another type. *)
Definition typeName (t : schemaType) (old : string) : string :=
  match deref t with
  | NamedType name _ => name
  | _ => old
  end.

(** The record that the endpoint case leaves, given the results [p1] and
    [p2] of the two annotation mappers and the method [m]. *)
Definition endpointRecord (toPathSegments : PathT → gmap string string → PathSegments)
    (r : Endpoint.t PathT) (x : EndpointInput.t PathSegments)
    (p1 : string * list ErrorInput.t) (p2 : string * gmap string string)
    (m : string) : EndpointInput.t PathSegments :=
  EndpointInput.mk p2.1 p1.2 (Endpoint.Name r) m (Endpoint.Access r) "GO"
    (toPathSegments (Endpoint.Path r) p2.2)
    (requestTypes r ++ responseTypes r)
    (typeName (Endpoint.Request r) (EndpointInput.RequestType x))
    (typeName (Endpoint.Response r) (EndpointInput.ResponseType x)).

(** [m] keeps the set of pointers, and the records behind the pointers of
    [keep]. *)
Definition steady {A} (keep : loc → Prop) (m : @M PathSegments A) : Prop :=
  ∀ s, dom (heap (m s).1) = dom (heap s)
       ∧ ∀ p, keep p → heap (m s).1 !! p = heap s !! p.
End Closed.

(** No overlay points to [p]. *)
Definition unclaimed (o : overlays) (p : loc) : Prop :=
  ∀ path ov, get o path = Some ov → endpoint ov ≠ p.

(** The declarations of a package are all of files that no overlay claims. *)
Definition strayResource {PathT} (o : overlays) (r : resource PathT) : Prop :=
  match r with
  | EndpointResource r => get o (Endpoint.File r) = None
  | OtherResource => True
  end.

Definition strayDeclaration (o : overlays) (d : decl) : Prop :=
  match d with
  | TypeDeclaration d => get o (TypeDecl.File d) = None
  | OtherDeclaration => True
  end.

Definition strayPackage {PathT} (o : overlays) (p : @packagePass PathT) : Prop :=
  match p with
  | Returns _ (resources, decls) =>
      Forall (strayResource o) resources ∧ Forall (strayDeclaration o) decls
  | BailsOut _ => True
  end.


Definition fooDecl : TypeDecl.t :=
  TypeDecl.mk "svc/echo.go" "Foo" (StructType [StructField.mk "ID" "string" " the id "]) "".

Definition withFoo : EndpointInput.t (list string) :=
  EndpointInput.mk "" [] "" "" "" "" [] [TypeInput.mk "Foo" "from the endpoint" []] "" "".

(** The names of the records of [Types]. *)
Definition typeNames {PathSegments} (x : EndpointInput.t PathSegments) : list string :=
  map TypeInput.Name (EndpointInput.Types x).

(** A second endpoint of the claimed file, without named types. *)
Definition ping : Endpoint.t (list string) :=
  Endpoint.mk "svc/echo.go" "Ping answers." "Ping" ["PUT"] "private" ["ping"]
    OtherType OtherType [] None.

(** A doc whose lines are all trimmed, and not empty after the first. *)
Definition tidy (d : string) : Prop :=
  Forall (λ l, TrimSpace l = l) (Split d LF)
  ∧ Forall (λ l, l ≠ "") (tail (Split d LF)).


(** Two label lines with a stop between them, and a white-space line after
    an empty one. *)
Definition docTwoLabels : string :=
  Join ["a"; "errors:"; "- A: b"; ""; ""; "tail"; "errors:"; "- C: d"] LF.

Definition docSpace : string :=
  Join ["errors:"; "- A: b"; ""; " "; "- C: d"] LF.

(** A section closed by a white-space line and an empty line, with text
    after them. *)
Definition docWide : string :=
  Join ["a"; "errors:"; "- A: b"; "  "; ""; "tail"] LF.

Definition docWide' : string :=
  Join ["a"; "errors:"; "- A: b"; "  "; ""; "other"; "- C: d"] LF.

(** * Properties *)

(** ** The string functions on small inputs *)

Example Split_empty : Split "" LF = [""].
Proof. reflexivity. Qed.

Example Split_trailing : Split (Join ["a"; "b"; ""] LF) LF = ["a"; "b"; ""].
Proof. reflexivity. Qed.

Example Join_none : Join [] LF = "".
Proof. reflexivity. Qed.

Example Cut_first : Cut "- a: b: c" colon = ("- a", " b: c", true).
Proof. reflexivity. Qed.

Example Cut_absent : Cut "plain" colon = ("plain", "", false).
Proof. reflexivity. Qed.

Example TrimPrefix_dash : TrimPrefix "- NotFound" "-" = " NotFound".
Proof. reflexivity. Qed.

Example TrimPrefix_absent : TrimPrefix "NotFound" "-" = "NotFound".
Proof. reflexivity. Qed.

Example TrimSpace_ascii : TrimSpace (String "009" "  a b " +:+ String "013" "") = "a b".
Proof. reflexivity. Qed.

(** U+00A0 at both ends, U+3000 at the end; a lone byte [0xA0] is kept. *)
Example TrimSpace_unicode :
  TrimSpace (String "194" (String "160" "x" +:+ String "227" (String "128" (String "128" ""))))
  = "x"
  ∧ TrimSpace (String "x" (String "160" "")) = String "x" (String "160" "").
Proof. split; reflexivity. Qed.

Example labelLine_indented : labelLine "errors" "   errors: see below" = true.
Proof. reflexivity. Qed.

Example terminator_cases :
  terminator "- a: b" = false ∧ terminator "  more" = false
  ∧ terminator "ab" = false ∧ terminator "abc" = true ∧ terminator "--x" = true.
Proof. repeat split; reflexivity. Qed.


(** ** Slices *)

(** Closes the bounds check of a slice expression. *)
Ltac bounds :=
  symmetry;
  rewrite ?andb_true_iff, ?Z.leb_le, ?Z.ltb_lt, ?Z.ltb_ge, ?Z.leb_gt;
  cbn [length]; lia.

Lemma assign_middle {A} (done : list A) (x y : A) (rest : list A) (i : Z) :
  i = Z.of_nat (length done) →
  assign (done ++ x :: rest) i y = Some (done ++ y :: rest).
Proof.
  intros ->. unfold assign.
  rewrite length_app, Nat2Z.id. cbn [length].
  replace ((0 <=? Z.of_nat (length done))
           && (Z.of_nat (length done) <? Z.of_nat (length done + S (length rest))))
    with true by bounds.
  f_equal. rewrite insert_app_r_alt by lia.
  by rewrite Nat.sub_diag.
Qed.

Lemma index_last {A} (done : list A) (rest : list A) (x : A) (i : Z) :
  i = Z.of_nat (length done) →
  last done = Some x →
  index (done ++ rest) (i - 1) = Some x.
Proof.
  intros -> Hlast. unfold index.
  destruct done as [|d done] using rev_ind; [done|].
  rewrite last_snoc in Hlast. injection Hlast as ->.
  rewrite length_app. cbn [length].
  replace (Z.of_nat (length done + 1) - 1 <? 0) with false by bounds.
  replace (Z.to_nat (Z.of_nat (length done + 1) - 1)) with (length done) by lia.
  rewrite <- app_assoc. by apply list_lookup_middle.
Qed.

Lemma slice_prefix {A} (l : list A) (n : Z) :
  0 <= n <= Z.of_nat (length l) →
  slice l 0 n = Some (take (Z.to_nat n) l).
Proof.
  intros H. unfold slice.
  replace ((0 <=? 0) && (0 <=? n) && (n <=? Z.of_nat (length l))) with true
    by bounds.
  by rewrite Z.sub_0_r, drop_0.
Qed.

Lemma slice_some {A} (l : list A) (lo hi : Z) :
  0 <= lo <= hi → hi <= Z.of_nat (length l) →
  slice l lo hi = Some (take (Z.to_nat (hi - lo)) (drop (Z.to_nat lo) l)).
Proof.
  intros H1 H2. unfold slice.
  by replace ((0 <=? lo) && (lo <=? hi) && (hi <=? Z.of_nat (length l))) with true
    by bounds.
Qed.

(** ** Strings *)

Lemma TrimSpace_empty : TrimSpace "" = "".
Proof. reflexivity. Qed.

Lemma labelLine_empty (section : string) : labelLine section "" = false.
Proof. unfold labelLine. rewrite TrimSpace_empty. by destruct section. Qed.

Lemma labelLine_nonempty (section line : string) :
  labelLine section line = true → String.eqb line "" = false.
Proof.
  intros H. destruct line; [|done]. by rewrite labelLine_empty in H.
Qed.

Lemma strPrefix_two (line : string) :
  (2 <? len line) = true → strPrefix line 2 = Some (String.substring 0 2 line).
Proof.
  intros H%Z.ltb_lt. unfold strPrefix.
  by replace ((0 <=? 2) && (2 <=? len line)) with true by bounds.
Qed.

(** ** The scanning loop *)

Lemma trimAndTest_spec (done rest : list string) (line prev : string) (i s e : Z) :
  i = Z.of_nat (length done) →
  (String.eqb line "" = true → last done = Some prev) →
  trimAndTest i line (mkScan (done ++ line :: rest) s e)
  = Some (if String.eqb line "" && String.eqb prev "" then Break else Next,
          mkScan (done ++ TrimSpace line :: rest) s e).
Proof.
  intros Hi Hprev. unfold trimAndTest. cbn [lines start end_].
  rewrite (assign_middle done line (TrimSpace line) rest i Hi). cbn.
  destruct (String.eqb line "") eqn:Hline; [|done].
  rewrite (index_last done _ prev i Hi (Hprev eq_refl)). cbn.
  by destruct (String.eqb prev "").
Qed.

Lemma switchPrefix_spec (i : Z) (line : string) (ls : list string) (s e : Z) :
  (2 <? len line) = true →
  switchPrefix i (String.substring 0 2 line) (mkScan ls s i)
  = mkScan ls s (if terminator line then i - 1 else i).
Proof.
  intros H. unfold switchPrefix, terminator. rewrite H. cbn.
  by destruct (_ || _).
Qed.

(** [scanLoop] on the slice [done ++ rest], at the index of the first line
    of [rest], does what [scanPure] says. *)
Lemma scanLoop_pure (section : string) (rest : list string) :
  ∀ (done : list string) (i s e : Z) (prev : string),
    i = Z.of_nat (length done) →
    (s ≠ -1 → last done = Some prev) →
    ∀ out s' e', scanPure section i prev s e rest = (out, s', e') →
      scanLoop section i rest (mkScan (done ++ rest) s e)
      = Some (mkScan (done ++ out ++ drop (length out) rest) s' e').
Proof.
  induction rest as [|line rest IH]; intros done i s e prev Hi Hprev out s' e' Hp.
  - cbn in Hp. injection Hp as <- <- <-. done.
  - assert (Hnext : ∀ x s0 e0 out1 s1 e1,
      scanPure section (i + 1) x s0 e0 rest = (out1, s1, e1) →
      scanLoop section (i + 1) rest (mkScan (done ++ x :: rest) s0 e0)
      = Some (mkScan (done ++ (x :: out1) ++ drop (length (x :: out1)) (line :: rest))
                s1 e1)).
    { intros x s0 e0 out1 s1 e1 Hrec.
      replace (done ++ x :: rest) with ((done ++ [x]) ++ rest)
        by (by rewrite <- app_assoc).
      rewrite (IH (done ++ [x]) (i + 1) s0 e0 x) with (out := out1) (s' := s1) (e' := e1);
        [by rewrite <- app_assoc | rewrite length_app; cbn; lia
        | by rewrite last_snoc | done]. }
    cbn [scanPure] in Hp. cbn [scanLoop]. unfold scanStep. cbn [lines start end_].
    destruct (labelLine section line) eqn:Hlabel.
    + destruct (scanPure section (i + 1) (TrimSpace line) i i rest)
        as [[out1 s1] e1] eqn:Hrec.
      injection Hp as <- <- <-.
      rewrite (trimAndTest_spec done rest line prev i i i Hi)
        by (rewrite (labelLine_nonempty _ _ Hlabel); done).
      rewrite (labelLine_nonempty _ _ Hlabel). cbn. by apply Hnext.
    + destruct (s =? -1) eqn:Hs.
      * destruct (scanPure section (i + 1) line s i rest)
          as [[out1 s1] e1] eqn:Hrec.
        injection Hp as <- <- <-. cbn. by apply Hnext.
      * apply Z.eqb_neq in Hs. specialize (Hprev Hs).
        assert (Hstep : ∀ e0,
          trimAndTest i line (mkScan (done ++ line :: rest) s e0)
          = Some (if String.eqb line "" && String.eqb prev "" then Break else Next,
                  mkScan (done ++ TrimSpace line :: rest) s e0))
          by (intros e0; apply trimAndTest_spec; done).
        assert (Hbody :
          (if 2 <? len line
           then two ← strPrefix line 2;
                trimAndTest i line
                  (switchPrefix i two (mkScan (done ++ line :: rest) s i))
           else trimAndTest i line (mkScan (done ++ line :: rest) s i))
          = Some (if String.eqb line "" && String.eqb prev "" then Break else Next,
                  mkScan (done ++ TrimSpace line :: rest) s
                    (if terminator line then i - 1 else i))).
        { destruct (2 <? len line) eqn:Hlen.
          - rewrite (strPrefix_two _ Hlen). cbn.
            rewrite (switchPrefix_spec i line _ s i Hlen). apply Hstep.
          - rewrite Hstep. unfold terminator. by rewrite Hlen. }
        rewrite Hbody. cbn.
        destruct (String.eqb line "" && String.eqb prev "").
        -- injection Hp as <- <- <-. cbn. by rewrite drop_0.
        -- destruct (scanPure section (i + 1) (TrimSpace line) s
                       (if terminator line then i - 1 else i) rest)
             as [[out1 s1] e1] eqn:Hrec.
           injection Hp as <- <- <-. by apply Hnext.
Qed.

(** The bounds the loop ends with: a label has been met, or [start] is
    still [-1]; in the first case [start <= end] and both are indices of
    lines the loop has visited. *)
Lemma scanPure_bounds (section : string) (rest : list string) :
  ∀ (i : Z) (prev : string) (s e : Z) out s' e',
    0 <= i →
    s = -1 ∨ (0 <= s <= e ∧ e < i) →
    scanPure section i prev s e rest = (out, s', e') →
    (length out ≤ length rest)%nat
    ∧ (s' = -1 ∨ (0 <= s' <= e' ∧ e' < i + Z.of_nat (length out))).
Proof.
  induction rest as [|line rest IH]; intros i prev s e out s' e' Hi Hinv Hp.
  - cbn in Hp. injection Hp as <- <- <-. cbn. split; [lia|].
    destruct Hinv as [?|?]; [by left | right; lia].
  - cbn [scanPure] in Hp.
    destruct (labelLine section line).
    + destruct (scanPure section (i + 1) (TrimSpace line) i i rest)
        as [[out1 s1] e1] eqn:Hrec.
      injection Hp as <- <- <-.
      apply IH in Hrec; [|lia|right; lia]. cbn [length]. lia.
    + destruct (s =? -1) eqn:Hs.
      * destruct (scanPure section (i + 1) line s i rest)
          as [[out1 s1] e1] eqn:Hrec.
        injection Hp as <- <- <-. apply Z.eqb_eq in Hs.
        apply IH in Hrec; [|lia|by left]. cbn [length]. lia.
      * apply Z.eqb_neq in Hs. destruct Hinv as [?|Hinv]; [done|].
        destruct (String.eqb line "" && String.eqb prev "").
        -- injection Hp as <- <- <-. cbn [length].
           split; [lia|]. right. destruct (terminator line); lia.
        -- destruct (scanPure section (i + 1) (TrimSpace line) s
                       (if terminator line then i - 1 else i) rest)
             as [[out1 s1] e1] eqn:Hrec.
           injection Hp as <- <- <-.
           apply IH in Hrec; [cbn [length]; lia | lia |].
           right. destruct (terminator line); lia.
Qed.

(** ** The second loop *)

Lemma appendDoc_total (errs : list DocEntry.t) (line : string) :
  (0 < length errs)%nat → is_Some (appendDoc errs line).
Proof.
  intros Hlen. unfold appendDoc, index, assign.
  replace (Z.of_nat (length errs) - 1 <? 0) with false by bounds.
  destruct (lookup_lt_is_Some_2 errs (Z.to_nat (Z.of_nat (length errs) - 1)))
    as [e He]; [lia|].
  rewrite He. cbn.
  by replace ((0 <=? Z.of_nat (length errs) - 1)
              && (Z.of_nat (length errs) - 1 <? Z.of_nat (length errs)))
    with true by bounds.
Qed.

Lemma entryStep_total (errs : list DocEntry.t) (line : string) :
  is_Some (entryStep errs line).
Proof.
  unfold entryStep. destruct (Cut line colon) as [[key doc] ok].
  destruct ok; [done|].
  destruct (0 <? Z.of_nat (length errs)) eqn:Hlen; [|done].
  destruct (negb (String.eqb line "")); [|done]. cbn.
  apply appendDoc_total. apply Z.ltb_lt in Hlen. lia.
Qed.

Lemma entryLoop_total (ls : list string) :
  ∀ errs, is_Some (entryLoop errs ls).
Proof.
  induction ls as [|line ls IH]; intros errs; [done|].
  cbn. destruct (entryStep_total errs line) as [errs' ->]. cbn. apply IH.
Qed.

(** ** [parseLines], by way of [scanPure] *)

Lemma parseLines_pure (doc section : string) (ls out : list string) (s e : Z) :
  scanPure section 0 "" (-1) (-1) ls = (out, s, e) →
  parseLines doc section ls =
    if s =? -1 then Some (doc, [])
    else
      errs ← entryLoop [] (take (Z.to_nat (e - s)) (drop (Z.to_nat (s + 1)) out));
      Some (Join (take (Z.to_nat s) out) LF, errs).
Proof.
  intros Hp. unfold parseLines.
  pose proof (scanLoop_pure section ls [] 0 (-1) (-1) "" eq_refl
                ltac:(done) out s e Hp) as Hloop.
  cbn [app] in Hloop. rewrite Hloop.
  cbn [mbind option_bind lines start end_].
  destruct (scanPure_bounds section ls 0 "" (-1) (-1) out s e
              ltac:(lia) ltac:(by left) Hp) as [Hlen Hb].
  destruct (s =? -1) eqn:Hs; [done|].
  apply Z.eqb_neq in Hs. destruct Hb as [?|Hb]; [done|].
  rewrite (slice_some _ (s + 1) (e + 1)) by (rewrite ?length_app; lia).
  cbn [mbind option_bind].
  replace (e + 1 - (s + 1)) with (e - s) by lia.
  rewrite drop_app_le by lia.
  rewrite (take_app_le (drop _ out)) by (rewrite length_drop; lia).
  destruct (entryLoop _ _) as [errs|]; cbn [mbind option_bind]; [|reflexivity].
  rewrite slice_prefix by (rewrite ?length_app; lia).
  cbn [mbind option_bind].
  by rewrite (take_app_le out) by lia.
Qed.

Lemma parseLines_total (doc section : string) (ls : list string) :
  is_Some (parseLines doc section ls).
Proof.
  destruct (scanPure section 0 "" (-1) (-1) ls) as [[out s] e] eqn:Hp.
  rewrite (parseLines_pure _ _ _ _ _ _ Hp).
  destruct (s =? -1); [done|].
  destruct (entryLoop_total (take (Z.to_nat (e - s)) (drop (Z.to_nat (s + 1)) out)) [])
    as [errs ->].
  done.
Qed.

Lemma parseDocSection_total (doc section : string) :
  is_Some (parseDocSection doc section).
Proof. apply parseLines_total. Qed.



(** ** What the loop leaves in [lines] *)

(** Before the first label line nothing is written. *)
Lemma scanPure_before_label (section : string) (pre tail : list string) :
  Forall (λ l, labelLine section l = false) pre →
  ∀ (i : Z) (prev : string) (e : Z),
    ∃ prev' e2,
      scanPure section i prev (-1) e (pre ++ tail)
      = let '(out, s', e') :=
          scanPure section (i + Z.of_nat (length pre)) prev' (-1) e2 tail in
        (pre ++ out, s', e').
Proof.
  induction 1 as [|line pre Hline Hpre IH]; intros i prev e.
  - exists prev, e. cbn [length app]. rewrite Z.add_0_r.
    destruct (scanPure _ _ _ _ _ _) as [[??]?]. reflexivity.
  - destruct (IH (i + 1) line i) as (prev' & e2 & Heq).
    exists prev', e2. cbn [app scanPure length]. rewrite Hline.
    change (-1 =? -1) with true. cbv iota. rewrite Heq.
    replace (i + 1 + Z.of_nat (length pre)) with (i + Z.of_nat (S (length pre))) by lia.
    clear. by destruct (scanPure _ _ _ _ _ tail) as [[??]?].
Qed.

(** From the first label line on every line visited is written trimmed,
    and [start] can only move to a later label line. *)
Lemma scanPure_trimmed (section : string) (rest : list string) :
  ∀ (i : Z) (prev : string) (s e : Z) out s' e',
    0 <= i → s ≠ -1 →
    scanPure section i prev s e rest = (out, s', e') →
    out = map TrimSpace (take (length out) rest)
    ∧ (s' = s
       ∨ ∃ (k : nat) lbl, s' = i + Z.of_nat k ∧ rest !! k = Some lbl
           ∧ labelLine section lbl = true ∧ (k < length out)%nat).
Proof.
  induction rest as [|line rest IH]; intros i prev s e out s' e' Hi Hs Hp.
  - cbn in Hp. injection Hp as <- <- <-. by split; [|left].
  - cbn [scanPure] in Hp.
    assert (Hnext : ∀ p s0 e0 out1 s1 e1, s0 ≠ -1 →
      (s0 = s ∨ (s0 = i ∧ labelLine section line = true)) →
      scanPure section (i + 1) p s0 e0 rest = (out1, s1, e1) →
      TrimSpace line :: out1
      = map TrimSpace (take (length (TrimSpace line :: out1)) (line :: rest))
      ∧ (s1 = s
         ∨ ∃ (k : nat) lbl, s1 = i + Z.of_nat k ∧ (line :: rest) !! k = Some lbl
             ∧ labelLine section lbl = true
             ∧ (k < length (TrimSpace line :: out1))%nat)).
    { intros p s0 e0 out1 s1 e1 Hs0 Hs0' Hrec.
      apply IH in Hrec as [Hout Hstart]; [|lia|done].
      split; [cbn; by rewrite <- Hout|].
      destruct Hstart as [->|(k & lbl & -> & Hk & Hlbl & Hlt)].
      - destruct Hs0' as [->|[-> Hlabel]]; [by left|].
        right. exists 0%nat, line. cbn. repeat split; [lia|done|lia].
      - right. exists (S k), lbl.
        split; [lia|]. split; [done|]. split; [done|cbn [length]; lia]. }
    destruct (labelLine section line) eqn:Hlabel.
    + destruct (scanPure section (i + 1) (TrimSpace line) i i rest)
        as [[out1 s1] e1] eqn:Hrec.
      injection Hp as <- <- <-.
      apply (Hnext (TrimSpace line) i i out1 s1 e1); [lia|by right|done].
    + rewrite (proj2 (Z.eqb_neq s (-1)) Hs) in Hp.
      destruct (String.eqb line "" && String.eqb prev "").
      * injection Hp as <- <- <-. by split; [|left].
      * destruct (scanPure section (i + 1) (TrimSpace line) s
                    (if terminator line then i - 1 else i) rest)
          as [[out1 s1] e1] eqn:Hrec.
        injection Hp as <- <- <-.
        eapply Hnext; [exact Hs|by left|exact Hrec].
Qed.

Lemma scanPure_no_label (section : string) (ls : list string) (i : Z) (prev : string) (e : Z) :
  Forall (λ l, labelLine section l = false) ls →
  ∃ e', scanPure section i prev (-1) e ls = (ls, -1, e').
Proof.
  intros Hls.
  destruct (scanPure_before_label section ls [] Hls i prev e) as (prev' & e2 & Heq).
  rewrite app_nil_r in Heq. cbn in Heq. rewrite app_nil_r in Heq. eauto.
Qed.

Lemma first_label (section : string) (ls : list string) :
  Forall (λ l, labelLine section l = false) ls
  ∨ ∃ pre lbl post, ls = pre ++ lbl :: post
      ∧ Forall (λ l, labelLine section l = false) pre
      ∧ labelLine section lbl = true.
Proof.
  induction ls as [|l ls IH]; [by left|].
  destruct (labelLine section l) eqn:Hl.
  - right. by exists [], l, ls.
  - destruct IH as [IH|(pre & lbl & post & -> & Hpre & Hlbl)].
    + left. by constructor.
    + right. exists (l :: pre), lbl, post. split; [done|]. split; [by constructor|done].
Qed.

Lemma parseLines_no_label (doc section : string) (ls : list string) :
  Forall (λ l, labelLine section l = false) ls →
  parseLines doc section ls = Some (doc, []).
Proof.
  intros Hls.
  destruct (scanPure_no_label section ls 0 "" (-1) Hls) as [e' Hp].
  by rewrite (parseLines_pure _ _ _ _ _ _ Hp).
Qed.

Lemma parseLines_label (doc section : string) (pre post : list string) (lbl : string) :
  Forall (λ l, labelLine section l = false) pre →
  labelLine section lbl = true →
  ∃ mid lbl' post' errs,
    lbl :: post = mid ++ lbl' :: post'
    ∧ labelLine section lbl' = true
    ∧ parseLines doc section (pre ++ lbl :: post)
      = Some (Join (pre ++ map TrimSpace mid) LF, errs).
Proof.
  intros Hpre Hlbl.
  destruct (scanPure_before_label section pre (lbl :: post) Hpre 0 "" (-1))
    as (prev' & e2 & Heq).
  destruct (scanPure section (0 + Z.of_nat (length pre)) prev' (-1) e2 (lbl :: post))
    as [[out s] e] eqn:Hp.
  rewrite (parseLines_pure _ _ _ _ _ _ Heq). clear Heq.
  cbn [scanPure] in Hp. rewrite Hlbl in Hp.
  destruct (scanPure section (0 + Z.of_nat (length pre) + 1) (TrimSpace lbl)
              (0 + Z.of_nat (length pre)) (0 + Z.of_nat (length pre)) post)
    as [[out1 s1] e1] eqn:Hrec.
  injection Hp as <- <- <-.
  apply scanPure_trimmed in Hrec as [Hout Hstart]; [|lia|lia].
  assert (Hk : ∃ (k : nat) lbl', s1 = Z.of_nat (length pre) + Z.of_nat k
             ∧ (lbl :: post) !! k = Some lbl'
             ∧ labelLine section lbl' = true ∧ (k ≤ length out1)%nat).
  { destruct Hstart as [->|(k & lbl' & -> & Hk & Hlbl' & Hlt)].
    - exists 0%nat, lbl. split; [lia|]. split; [done|]. split; [done|lia].
    - exists (S k), lbl'. split; [lia|]. split; [done|]. split; [done|lia]. }
  destruct Hk as (k & lbl' & -> & Hk & Hlbl' & Hlt).
  replace (Z.of_nat (length pre) + Z.of_nat k =? -1) with false by bounds.
  destruct (entryLoop_total
              (take (Z.to_nat (e1 - (Z.of_nat (length pre) + Z.of_nat k)))
                 (drop (Z.to_nat (Z.of_nat (length pre) + Z.of_nat k + 1))
                    (pre ++ TrimSpace lbl :: out1))) []) as [errs Herrs].
  exists (take k (lbl :: post)), lbl', (drop (S k) (lbl :: post)), errs.
  split; [by rewrite take_drop_middle|]. split; [done|].
  rewrite Herrs. cbn [mbind option_bind]. do 3 f_equal.
  replace (Z.to_nat (Z.of_nat (length pre) + Z.of_nat k)) with (length pre + k)%nat by lia.
  rewrite take_app_add. f_equal.
  replace (TrimSpace lbl :: out1)
    with (map TrimSpace (take (S (length out1)) (lbl :: post)))
    by (cbn; by rewrite <- Hout).
  rewrite firstn_map, take_take. do 2 f_equal. lia.
Qed.

(** ** [Split], [Join] and [TrimSpace] *)

Lemma Split_nonempty (s : string) (sep : ascii) : Split s sep ≠ [].
Proof.
  destruct s as [|c s]; [done|]. cbn.
  destruct (Ascii.eqb c sep); [done|]. by destruct (Split s sep).
Qed.

Lemma Split_append (a b : string) (sep : ascii) :
  Split a sep = [a] →
  Split (a +:+ String sep b) sep = a :: Split b sep.
Proof.
  induction a as [|c a IH]; intros Ha.
  - change (Split (String sep b) sep = "" :: Split b sep).
    cbn. by rewrite Ascii.eqb_refl.
  - change (Split (String c (a +:+ String sep b)) sep = String c a :: Split b sep).
    cbn in Ha |- *. destruct (Ascii.eqb c sep); [done|].
    destruct (Split a sep) as [|piece pieces] eqn:Hsplit; [by destruct (Split_nonempty a sep)|].
    injection Ha as -> ->. by rewrite IH.
Qed.

Lemma Split_Join (ls : list string) (sep : ascii) :
  Forall (λ l, Split l sep = [l]) ls → ls ≠ [] →
  Split (Join ls sep) sep = ls.
Proof.
  induction 1 as [|l ls Hl Hls IH]; intros Hne; [done|].
  destruct ls as [|l' ls]; [done|].
  change (Join (l :: l' :: ls) sep) with (l +:+ String sep (Join (l' :: ls) sep)).
  rewrite Split_append by done. by rewrite IH.
Qed.

Lemma Split_pieces (s : string) (sep : ascii) :
  Forall (λ l, Split l sep = [l]) (Split s sep).
Proof.
  induction s as [|c s IH]; [by repeat constructor|].
  cbn. destruct (Ascii.eqb c sep) eqn:Hc; [by constructor|].
  destruct (Split s sep) as [|piece pieces] eqn:Hs;
    [by destruct (Split_nonempty s sep)|].
  inversion IH as [|?? Hpiece Hpieces]; subst.
  constructor; [|done]. cbn. by rewrite Hc, Hpiece.
Qed.

(** [oneLine], on the bytes. *)
Lemma Split_whole (s : string) (sep : ascii) :
  Split s sep = [s] ↔ sep ∉ list_ascii_of_string s.
Proof.
  induction s as [|c s IH]; cbn.
  - split; [intros _; apply not_elem_of_nil|done].
  - destruct (Ascii.eqb c sep) eqn:Hc.
    + apply Ascii.eqb_eq in Hc as ->. split; [done|]. intros []. by left.
    + apply Ascii.eqb_neq in Hc. rewrite not_elem_of_cons, <- IH.
      destruct (Split s sep) as [|piece pieces] eqn:Hs; [by destruct (Split_nonempty s sep)|].
      split.
      * intros [= -> ->]. done.
      * intros [_ [= -> ->]]. done.
Qed.

Section StripFacts.
Variable w1 : ascii → bool.
Variable w2 : ascii → ascii → bool.
Variable w3 : ascii → ascii → ascii → bool.

Lemma strip_unfold (l : list ascii) :
  strip w1 w2 w3 l
  = match peel w1 w2 w3 l with Some r => strip w1 w2 w3 r | None => l end.
Proof.
  destruct l as [|a [|b [|c r]]]; cbn; [done|..].
  - by destruct (w1 a).
  - destruct (w1 a); [done|]. by destruct (w2 a b).
  - destruct (w1 a); [done|]. destruct (w2 a b); [done|]. by destruct (w3 a b c).
Qed.

Lemma peel_suffix (l r : list ascii) :
  peel w1 w2 w3 l = Some r → ∃ w, w ≠ [] ∧ l = w ++ r.
Proof.
  destruct l as [|a [|b [|c l]]]; cbn; [done|..].
  - destruct (w1 a); [|done]. intros [= <-]. by exists [a].
  - destruct (w1 a); [intros [= <-]; by exists [a]|].
    destruct (w2 a b); [|done]. intros [= <-]. by exists [a; b].
  - destruct (w1 a); [intros [= <-]; by exists [a]|].
    destruct (w2 a b); [intros [= <-]; by exists [a; b]|].
    destruct (w3 a b c); [|done]. intros [= <-]. by exists [a; b; c].
Qed.

Lemma peel_app (l r w : list ascii) :
  peel w1 w2 w3 l = Some r → peel w1 w2 w3 (l ++ w) = Some (r ++ w).
Proof.
  destruct l as [|a [|b [|c l]]]; cbn; [done|..].
  - destruct (w1 a); [|done]. by intros [= <-].
  - destruct (w1 a); [by intros [= <-]|].
    destruct (w2 a b); [|done]. by intros [= <-].
  - destruct (w1 a); [by intros [= <-]|].
    destruct (w2 a b); [by intros [= <-]|].
    destruct (w3 a b c); [|done]. by intros [= <-].
Qed.

Lemma strip_spec (l : list ascii) :
  peel w1 w2 w3 (strip w1 w2 w3 l) = None
  ∧ ∃ w, l = w ++ strip w1 w2 w3 l.
Proof.
  remember (length l) as n eqn:Hn. revert l Hn.
  induction n as [n IH] using lt_wf_ind; intros l ->.
  rewrite strip_unfold. destruct (peel w1 w2 w3 l) as [r|] eqn:Hpeel.
  - destruct (peel_suffix l r Hpeel) as (w & Hw & ->).
    destruct (IH (length r)) with (l := r) as [Hnone [w' Hw']]; [|done|].
    + rewrite length_app. destruct w; [done|]. cbn. lia.
    + split; [done|]. exists (w ++ w'). by rewrite <- app_assoc, <- Hw'.
  - split; [done|]. by exists [].
Qed.

Lemma strip_fixed (l : list ascii) :
  peel w1 w2 w3 l = None → strip w1 w2 w3 l = l.
Proof. intros H. by rewrite strip_unfold, H. Qed.

Lemma strip_idemp (l : list ascii) :
  strip w1 w2 w3 (strip w1 w2 w3 l) = strip w1 w2 w3 l.
Proof. apply strip_fixed, strip_spec. Qed.

Lemma peel_prefix (p w : list ascii) :
  peel w1 w2 w3 (p ++ w) = None → peel w1 w2 w3 p = None.
Proof.
  intros H. destruct (peel w1 w2 w3 p) as [r|] eqn:Hp; [|done].
  by rewrite (peel_app p r w Hp) in H.
Qed.
End StripFacts.

Lemma trimRight_prefix (l : list ascii) : ∃ w, l = trimRight l ++ w.
Proof.
  unfold trimRight.
  destruct (strip_spec asciiSpace (λ b a, space2 a b) (λ c b a, space3 a b c) (rev l))
    as [_ [w Hw]].
  exists (rev w). rewrite <- rev_app_distr, <- Hw. by rewrite rev_involutive.
Qed.

Lemma trimRight_idemp (l : list ascii) : trimRight (trimRight l) = trimRight l.
Proof. unfold trimRight. by rewrite rev_involutive, strip_idemp. Qed.

Lemma trimLeft_trimRight (l : list ascii) :
  trimLeft (trimRight (trimLeft l)) = trimRight (trimLeft l).
Proof.
  apply strip_fixed.
  destruct (trimRight_prefix (trimLeft l)) as [w Hw].
  apply (peel_prefix _ _ _ _ w). rewrite <- Hw. apply strip_spec.
Qed.

Lemma TrimSpace_idemp (s : string) : TrimSpace (TrimSpace s) = TrimSpace s.
Proof.
  unfold TrimSpace. rewrite list_ascii_of_string_of_list_ascii.
  by rewrite trimLeft_trimRight, trimRight_idemp.
Qed.

Lemma TrimSpace_bytes (s : string) (c : ascii) :
  c ∈ list_ascii_of_string (TrimSpace s) → c ∈ list_ascii_of_string s.
Proof.
  unfold TrimSpace. rewrite list_ascii_of_string_of_list_ascii.
  destruct (trimRight_prefix (trimLeft (list_ascii_of_string s))) as [w Hw].
  destruct (strip_spec asciiSpace space2 space3 (list_ascii_of_string s)) as [_ [w' Hw']].
  fold trimLeft in Hw'. intros Hc.
  rewrite Hw', Hw. set_solver.
Qed.

Lemma TrimSpace_oneLine (s : string) : oneLine s → oneLine (TrimSpace s).
Proof.
  unfold oneLine. rewrite !Split_whole. intros Hs Hc. by apply Hs, TrimSpace_bytes.
Qed.

(** ** The claims on [parseDocSection] *)

Lemma normalize_Join (ls : list string) :
  Forall oneLine ls → normalize (Join ls LF) = Join (map TrimSpace ls) LF.
Proof.
  intros Hls. unfold normalize.
  destruct ls as [|l ls]; [done|]. by rewrite Split_Join.
Qed.

Lemma Join_Split (s : string) (sep : ascii) : Join (Split s sep) sep = s.
Proof.
  induction s as [|c s IH]; [done|]. cbn [Split].
  destruct (Split s sep) as [|piece pieces] eqn:Hs;
    [by destruct (Split_nonempty s sep)|].
  destruct (Ascii.eqb c sep) eqn:Hc.
  - apply Ascii.eqb_eq in Hc as ->.
    change (String sep (Join (piece :: pieces) sep) = String sep s). by rewrite IH.
  - rewrite <- IH. by destruct pieces.
Qed.

(** With one label line only, the remainder is the text before it. *)
Corollary parseDocSection_single_label (doc section : string)
    (pre post : list string) (lbl : string) :
  Split doc LF = pre ++ lbl :: post →
  Forall (λ l, labelLine section l = false) (pre ++ post) →
  labelLine section lbl = true →
  ∃ errs, parseDocSection doc section = Some (Join pre LF, errs).
Proof.
  intros Hsplit [Hpre Hpost]%Forall_app Hlbl. unfold parseDocSection. rewrite Hsplit.
  destruct (parseLines_label doc section pre post lbl Hpre Hlbl)
    as (mid & lbl' & post' & errs & Hmid & Hlbl' & Hparse).
  exists errs. rewrite Hparse. destruct mid as [|l mid].
  - by rewrite app_nil_r.
  - injection Hmid as -> ->.
    apply Forall_app in Hpost as [_ Hpost]. inversion Hpost; congruence.
Qed.







(** Two label lines.  With a stop between them the first one is the start of
    the section; without one the second is, and the first section is part
    of the remainder. *)
Example parseDocSection_two_labels :
  parseDocSection docTwoLabels "errors" = Some ("a", [DocEntry.mk "A" "b"])
  ∧ parseDocSection (Join ["errors:"; "- A: b"; "errors:"; "- C: d"] LF) "errors"
    = Some (Join ["errors:"; "- A: b"] LF, [DocEntry.mk "C" "d"]).
Proof. by vm_compute. Qed.

(** One call keeps, up to trimming, an initial segment of the lines: all of
    them when no line is a label line, and otherwise the lines before a
    label line, the first one or a later one. *)
Lemma parseDocSection_segment (doc section : string) :
  ∃ ls errs n,
    parseDocSection doc section = Some (Join ls LF, errs)
    ∧ Forall oneLine ls
    ∧ map TrimSpace ls = take n (map TrimSpace (Split doc LF))
    ∧ (∀ k, Forall (λ l, labelLine section l = false) (take k (Split doc LF)) →
            (k ≤ length (Split doc LF))%nat → (k ≤ n)%nat)
    ∧ ((Forall (λ l, labelLine section l = false) (Split doc LF)
        ∧ n = length (Split doc LF))
       ∨ ∃ l, Split doc LF !! n = Some l ∧ labelLine section l = true).
Proof.
  unfold parseDocSection.
  pose proof (Split_pieces doc LF) as Hone.
  destruct (first_label section (Split doc LF))
    as [Hnone|(pre & lbl & post & Hsplit & Hpre & Hlbl)].
  - exists (Split doc LF), [], (length (Split doc LF)).
    rewrite Join_Split. split; [by apply parseLines_no_label|].
    split; [done|]. split; [|split; [done|by left]].
    by rewrite <- (length_map TrimSpace), firstn_all.
  - destruct (parseLines_label doc section pre post lbl Hpre Hlbl)
      as (mid & lbl' & post' & errs & Hmid & Hlbl' & Hparse).
    exists (pre ++ map TrimSpace mid), errs, (length (pre ++ mid)).
    split; [by rewrite Hsplit|].
    rewrite Hsplit in Hone |- *.
    split; [|split; [|split]].
    + rewrite Hmid, app_assoc in Hone.
      apply Forall_app in Hone as [Hone _]. apply Forall_app in Hone as [Hp Hm].
      apply Forall_app. split; [done|].
      apply Forall_map. eapply Forall_impl; [exact Hm|]. apply TrimSpace_oneLine.
    + rewrite Hmid, app_assoc.
      rewrite (map_app _ (pre ++ mid)), take_app_length'
        by (by rewrite length_map).
      rewrite !map_app, map_map. f_equal. apply map_ext. intros l.
      apply TrimSpace_idemp.
    + intros k Hk _. rewrite length_app.
      destruct (decide (k ≤ length pre)%nat) as [?|Hgt]; [lia|].
      assert (Hin : (pre ++ lbl :: post) !! length pre = Some lbl)
        by (by apply list_lookup_middle).
      rewrite Forall_lookup in Hk.
      specialize (Hk (length pre) lbl).
      rewrite lookup_take_lt in Hk by lia. specialize (Hk Hin). congruence.
    + right. exists lbl'. split; [|done].
      rewrite Hmid, app_assoc. by apply list_lookup_middle.
Qed.

Lemma labelLine_trimmed (section a b : string) :
  TrimSpace a = TrimSpace b → labelLine section a = labelLine section b.
Proof. unfold labelLine. by intros ->. Qed.

(** C2 (amended).  The remainder left by [parseErrorDoc] and then
    [parsePathDoc] is, up to the trimming of lines, an initial segment of the
    document: its first [n] lines.  That segment holds at least every line
    before the first label line of either kind.  When no line is a label
    line it is the whole document; otherwise it ends just before a label
    line of one of the two kinds: line [n] is a label line, and that line
    and all that follows it are not kept. *)
Theorem annotations_keep_prefix (doc : string) :
  ∃ r1 errs r2 paths n,
    parseErrorDoc doc = Some (r1, errs)
    ∧ parsePathDoc r1 = Some (r2, paths)
    ∧ normalize r2 = Join (take n (map TrimSpace (Split doc LF))) LF
    ∧ (∀ k, Forall (λ l, labelLine ErrDocPrefix l = false
                         ∧ labelLine PathDocPrefix l = false)
                   (take k (Split doc LF)) →
            (k ≤ length (Split doc LF))%nat → (k ≤ n)%nat)
    ∧ ((Forall (λ l, labelLine ErrDocPrefix l = false
                     ∧ labelLine PathDocPrefix l = false) (Split doc LF)
        ∧ n = length (Split doc LF))
       ∨ ∃ l, Split doc LF !! n = Some l
              ∧ (labelLine ErrDocPrefix l = true ∨ labelLine PathDocPrefix l = true)).
Proof.
  destruct (parseDocSection_segment doc ErrDocPrefix)
    as (l1 & e1 & n1 & Hp1 & Hone1 & Hl1 & Hlow1 & Hend1).
  destruct (parseDocSection_segment (Join l1 LF) PathDocPrefix)
    as (l2 & e2 & n2 & Hp2 & Hone2 & Hl2 & Hlow2 & Hend2).
  set (both := λ l, labelLine ErrDocPrefix l = false ∧ labelLine PathDocPrefix l = false).
  assert (Hn : ∃ n,
    normalize (Join l2 LF) = Join (take n (map TrimSpace (Split doc LF))) LF
    ∧ (∀ k, Forall both (take k (Split doc LF)) →
            (k ≤ length (Split doc LF))%nat → (k ≤ n)%nat)
    ∧ ((Forall both (Split doc LF) ∧ n = length (Split doc LF))
       ∨ ∃ l, Split doc LF !! n = Some l
              ∧ (labelLine ErrDocPrefix l = true ∨ labelLine PathDocPrefix l = true)));
    [|destruct Hn as (n & Hn & Hlow & Hend); eexists (Join l1 LF), _, (Join l2 LF), _, n;
      unfold parseErrorDoc, parsePathDoc; rewrite Hp1, Hp2; done].
  clear Hp1 Hp2. rewrite normalize_Join by done. rewrite Hl2.
  assert (Hk1 : ∀ k, Forall both (take k (Split doc LF)) →
                 (k ≤ length (Split doc LF))%nat → (k ≤ n1)%nat).
  { intros k Hk Hlen. apply Hlow1; [|done].
    eapply Forall_impl; [exact Hk|]. by intros l [? _]. }
  assert (Hlen1 : length l1 = (n1 `min` length (Split doc LF))%nat)
    by (by rewrite <- (length_map TrimSpace l1), Hl1, length_take, length_map).
  pose proof (Split_nonempty doc LF) as Hlines.
  destruct l1 as [|l l1].
  - exists 0%nat. split; [cbn; by destruct n2 as [|[|n2]]|].
    assert (n1 = 0)%nat as ->.
    { destruct (Split doc LF); [done|]. cbn in Hlen1. lia. }
    split; [intros k Hk Hlen; by apply Hk1|].
    right. destruct Hend1 as [[_ Hlen]|(l & Hl & Hlbl)].
    + destruct (Split doc LF); [done|]. done.
    + exists l. split; [done|by left].
  - rewrite Split_Join in Hl2, Hlow2, Hend2 |- * by done.
    exists (n2 `min` n1)%nat. rewrite Hl1, take_take. split; [done|].
    assert (Hsame : ∀ (k : nat) x, (l :: l1) !! k = Some x →
              ∃ y, Split doc LF !! k = Some y ∧ TrimSpace x = TrimSpace y).
    { intros k x Hx.
      assert (Hm : map TrimSpace (l :: l1) !! k = Some (TrimSpace x))
        by (by rewrite list_lookup_fmap, Hx).
      rewrite Hl1 in Hm. apply lookup_take_Some in Hm as [Hm _].
      rewrite list_lookup_fmap in Hm.
      destruct (Split doc LF !! k) as [y|]; [|done]. injection Hm as Hm.
      by exists y. }
    split.
    + intros k Hk Hlen. specialize (Hk1 k Hk Hlen).
      assert (k ≤ n2)%nat; [|lia].
      apply Hlow2; [|lia].
      apply Forall_lookup. intros j x Hx.
      apply lookup_take_Some in Hx as [Hx Hj].
      destruct (Hsame j x Hx) as (y & Hy & Hxy).
      rewrite (labelLine_trimmed _ _ _ Hxy).
      rewrite Forall_lookup in Hk. apply (Hk j y).
      by rewrite lookup_take_lt.
    + destruct Hend2 as [[Hnone2 ->]|(x & Hx & Hlbl2)].
      * rewrite Hlen1.
        destruct Hend1 as [[Hnone1 ->]|(y & Hy & Hlbl1)].
        -- left. split; [|lia]. apply Forall_lookup. intros j y Hy.
           rewrite Forall_lookup in Hnone1. split; [by eapply Hnone1|].
           assert (Hj : (j < length (l :: l1))%nat)
             by (rewrite Hlen1; apply lookup_lt_Some in Hy; lia).
           apply lookup_lt_is_Some in Hj as [x Hx].
           destruct (Hsame j x Hx) as (y' & Hy' & Hxy).
           assert (y' = y) as -> by congruence.
           rewrite <- (labelLine_trimmed _ _ _ Hxy).
           rewrite Forall_lookup in Hnone2. by eapply Hnone2.
        -- right. exists y. apply lookup_lt_Some in Hy as Hlt.
           replace ((n1 `min` length (Split doc LF)) `min` n1)%nat with n1 by lia.
           split; [done|by left].
      * right. apply lookup_lt_Some in Hx as Hlt.
        destruct (Hsame n2 x Hx) as (y & Hy & Hxy).
        exists y. replace (n2 `min` n1)%nat with n2 by lia.
        split; [done|]. right. by rewrite <- (labelLine_trimmed _ _ _ Hxy).
Qed.

Lemma roundTrip_counterexample :
  parseErrorDoc docExample
  = Some ("Does X.",
          [ErrorInput.mk "NotFound" "no such thing"; ErrorInput.mk "Internal" "oops"])
  ∧ parsePathDoc "Does X." = Some ("Does X.", ∅)
  ∧ "more text" ∈ textOf (Split docExample LF)
  ∧ ("more text" ∉ textOf (Split "Does X." LF
                            ++ consumedSection docExample ErrDocPrefix
                            ++ consumedSection "Does X." PathDocPrefix))
  ∧ ¬ roundTrip docExample.
Proof.
  assert (Hin : "more text" ∈ textOf (Split docExample LF))
    by (apply (bool_decide_unpack _); vm_compute; exact I).
  assert (Hout : "more text" ∉ textOf (Split "Does X." LF
                                      ++ consumedSection docExample ErrDocPrefix
                                      ++ consumedSection "Does X." PathDocPrefix))
    by (apply (bool_decide_unpack _); vm_compute; exact I).
  repeat split; [exact Hin|exact Hout|].
  intros (r1 & errs & r2 & paths & H1 & H2 & Hperm).
  vm_compute in H1. injection H1 as <- <-.
  vm_compute in H2. injection H2 as <- <-.
  apply Hout. change (String "D" _) with "Does X."%string in Hperm.
  by rewrite Hperm.
Qed.

(** C3 (amended).  On the example document
    ["Does X.\nerrors:\n- NotFound: no such thing\n- Internal: oops\n\nmore text"]
    [parseErrorDoc] returns the remainder ["Does X."] and the entries
    [NotFound], "no such thing" and [Internal], "oops", in that order. *)
Theorem parseErrorDoc_example :
  parseErrorDoc docExample
  = Some ("Does X.",
          [ErrorInput.mk "NotFound" "no such thing"; ErrorInput.mk "Internal" "oops"]).
Proof. reflexivity. Qed.

Lemma parseErrorDoc_example_counterexample :
  parseErrorDoc docExample
  ≠ Some (Join ["Does X."; ""; "more text"] LF,
          [ErrorInput.mk "NotFound" "no such thing"; ErrorInput.mk "Internal" "oops"]).
Proof. by vm_compute. Qed.

(** C6 (the code at the failing input).  The line ["plain text"] takes the
    default case of the [switch].  As the last line of the text it ends the
    section and gives no entry; followed by another line it does not: its
    text is added to the entry before it, and the list item after it gives
    an entry of its own. *)
Theorem terminator_only_last :
  terminator "plain text" = true
  ∧ parseDocSection docProseLast "errors" = Some ("", [DocEntry.mk "A" "b"])
  ∧ parseDocSection docProse "errors"
    = Some ("", [DocEntry.mk "A" ("b" +:+ String LF "plain text");
                 DocEntry.mk "C" "d"]).
Proof. by vm_compute. Qed.

(** Once set, [start] is not [-1] again. *)
Lemma scanPure_start_kept (section : string) (ls : list string)
    (i : Z) (prev : string) (s e : Z) out s' e' :
  0 <= i → s ≠ -1 →
  scanPure section i prev s e ls = (out, s', e') → s' ≠ -1.
Proof.
  intros Hi Hs Hp.
  destruct (scanPure_trimmed section ls i prev s e out s' e' Hi Hs Hp)
    as [_ [->|(k & lbl & -> & _)]]; [done|lia].
Qed.

Lemma scanPure_found (section : string) (ls : list string) :
  ∀ (i : Z) (prev : string) (s e : Z) out s' e',
    0 <= i → existsb (labelLine section) ls = true →
    scanPure section i prev s e ls = (out, s', e') → s' ≠ -1.
Proof.
  induction ls as [|l ls IH]; intros i prev s e out s' e' Hi Hex Hp; [done|].
  destruct (decide (s = -1)) as [->|Hs];
    [|by eapply scanPure_start_kept].
  cbn [scanPure] in Hp. cbn in Hex.
  destruct (labelLine section l).
  - destruct (scanPure section (i + 1) (TrimSpace l) i i ls)
      as [[out1 s1] e1] eqn:Hrec.
    injection Hp as <- <- <-.
    eapply (scanPure_start_kept _ _ (i + 1)); [| |exact Hrec]; lia.
  - cbn in Hp.
    destruct (scanPure section (i + 1) l (-1) i ls) as [[out1 s1] e1] eqn:Hrec.
    injection Hp as <- <- <-.
    eapply (IH (i + 1)); [| |exact Hrec]; [lia|done].
Qed.

Lemma labelLine_blank (section line : string) :
  TrimSpace line = "" → labelLine section line = false.
Proof.
  intros Hline. rewrite <- (labelLine_empty section). apply labelLine_trimmed.
  by rewrite TrimSpace_empty.
Qed.

(** Once a label has been met, whatever follows a blank line and an empty
    line is not read. *)
Lemma scanPure_blank_break (section : string) (head : list string) :
  ∀ (i : Z) (prev : string) (s e : Z) (blank : string) (tail tail' : list string),
    0 <= i → TrimSpace blank = "" →
    s ≠ -1 ∨ existsb (labelLine section) head = true →
    scanPure section i prev s e (head ++ blank :: "" :: tail)
    = scanPure section i prev s e (head ++ blank :: "" :: tail').
Proof.
  induction head as [|line head IH]; intros i prev s e blank tail tail' Hi Hblank Hs.
  - destruct Hs as [Hs|?]; [|done].
    cbn [app scanPure].
    rewrite !labelLine_empty, (labelLine_blank _ _ Hblank),
      !(proj2 (Z.eqb_neq s (-1)) Hs), !TrimSpace_empty, Hblank.
    change (String.eqb "" "") with true. cbn [andb].
    by destruct (String.eqb blank "" && String.eqb prev "").
  - cbn [app scanPure].
    destruct (labelLine section line) eqn:Hlabel.
    + by rewrite (IH (i + 1) _ i i blank tail tail') by (lia || done || left; lia).
    + destruct (s =? -1) eqn:Hs1.
      * rewrite (IH (i + 1) line s i blank tail tail'); [done|lia|done|].
        apply Z.eqb_eq in Hs1. destruct Hs as [?|Hs]; [done|].
        right. cbn in Hs. by rewrite Hlabel in Hs.
      * destruct (String.eqb line "" && String.eqb prev ""); [done|].
        apply Z.eqb_neq in Hs1.
        by rewrite (IH (i + 1) (TrimSpace line) s _ blank tail tail')
          by (lia || done || by left).
Qed.

(** C7 (amended).  When the lines before a blank line, empty or of white
    space only, that is directly followed by an empty line hold a label
    line, what comes after that empty line has no part in the result: it is
    in no entry, and it is not in the remainder either.  Two texts that
    differ only after the empty line give the same entries and the same
    remainder. *)
Theorem blank_lines_cut (section doc doc' blank : string) (head tail tail' : list string) :
  Split doc LF = head ++ blank :: "" :: tail →
  Split doc' LF = head ++ blank :: "" :: tail' →
  TrimSpace blank = "" →
  existsb (labelLine section) head = true →
  parseDocSection doc section = parseDocSection doc' section.
Proof.
  intros Hdoc Hdoc' Hblank Hlabel. unfold parseDocSection. rewrite Hdoc, Hdoc'.
  destruct (scanPure section 0 "" (-1) (-1) (head ++ blank :: "" :: tail))
    as [[out s] e] eqn:Hp.
  pose proof Hp as Hp'.
  rewrite (scanPure_blank_break section head 0 "" (-1) (-1) blank tail tail') in Hp'
    by (lia || done || by right).
  rewrite (parseLines_pure _ _ _ _ _ _ Hp), (parseLines_pure _ _ _ _ _ _ Hp').
  assert (Hs : s ≠ -1).
  { eapply (scanPure_found section _ 0); [lia| |exact Hp].
    rewrite existsb_app, Hlabel. done. }
  by rewrite (proj2 (Z.eqb_neq s (-1)) Hs).
Qed.

Lemma blank_lines_cut_witness :
  parseDocSection docWide "errors" = parseDocSection docWide' "errors".
Proof.
  apply (blank_lines_cut "errors" docWide docWide' "  " ["a"; "errors:"; "- A: b"]
           ["tail"] ["other"; "- C: d"]); reflexivity.
Defined.

Lemma blank_lines_cut_counterexample :
  parseDocSection docBlank "errors" = Some ("a", [DocEntry.mk "A" "b"])
  ∧ ¬ keepsTail ["tail"] "a"
  ∧ ¬ (∃ r errs, parseDocSection docBlank "errors" = Some (r, errs)
                  ∧ keepsTail ["tail"] r)
  ∧ parseDocSection docSpace "errors"
    = Some ("", [DocEntry.mk "A" "b"; DocEntry.mk "C" "d"]).
Proof.
  assert (Hkeep : ¬ keepsTail ["tail"] "a").
  { intros [before Hkeep]. vm_compute in Hkeep. by destruct before as [|? [|? ?]]. }
  repeat split; [exact Hkeep|].
  intros (r & errs & Hparse & Hr).
  vm_compute in Hparse. injection Hparse as <- <-.
  by apply Hkeep.
Qed.

(** The inputs at the edge: the empty text, a blank first line, a label line
    that is the last line, and a blank line right after a first-line label. *)
Example parseDocSection_edges :
  parseDocSection "" "errors" = Some ("", [])
  ∧ parseDocSection (Join [""; ""; "errors:"] LF) "errors" = Some (String LF "", [])
  ∧ parseDocSection (Join ["text"; "errors:"] LF) "errors" = Some ("text", [])
  ∧ parseDocSection (Join ["errors:"; ""; ""; "- A: b"] LF) "errors" = Some ("", []).
Proof. repeat split; reflexivity. Qed.

(** C10.  [parseDocSection] returns on every text and every label: no index
    or slice expression of it is out of range.  In particular the first
    iteration of the loop, at index [0], never fails: it does not read
    [lines[i-1]]. *)
Theorem parseDocSection_no_panic :
  (∀ doc section, ∃ r errs, parseDocSection doc section = Some (r, errs))
  ∧ (∀ section line rest,
       is_Some (scanStep section 0 line (mkScan (line :: rest) (-1) (-1)))).
Proof.
  split.
  - intros doc section.
    destruct (parseDocSection_total doc section) as [[r errs] H]. eauto.
  - intros section line rest. unfold scanStep. cbn [lines start end_].
    destruct (labelLine section line) eqn:Hlabel; [|done].
    pose proof (trimAndTest_spec [] rest line "" 0 0 0 eq_refl) as Hstep.
    cbn [app] in Hstep. rewrite Hstep; [done|].
    by rewrite (labelLine_nonempty _ _ Hlabel).
Qed.

(** ** The pass *)

Section PassFacts.
Context {PathT PathSegments ServiceInput : Type}.
Variable toPathSegments : PathT → gmap string string → PathSegments.
Implicit Types (s : @session PathSegments) (e : loc).

Lemma triple_ret {A} (a : A) (P : @session PathSegments → Prop) :
  triple P (ret a) (λ _, P).
Proof. intros s Hs. by exists s, a. Qed.

Lemma triple_bind {A B} (m : M A) (k : A → M B) P Q (R : B → @session PathSegments → Prop) :
  triple P m Q → (∀ a, triple (Q a) (k a) R) → triple P (bind m k) R.
Proof.
  intros Hm Hk s Hs. destruct (Hm s Hs) as (s1 & a & Hrun & Hq).
  destruct (Hk a s1 Hq) as (s2 & b & Hrun2 & Hr).
  exists s2, b. unfold bind. by rewrite Hrun.
Qed.

Lemma triple_weaken {A} (m : M A) (P : @session PathSegments → Prop)
    (Q Q' : A → @session PathSegments → Prop) :
  triple P m Q → (∀ a s, Q a s → Q' a s) → triple P m Q'.
Proof.
  intros Hm Himp s Hs. destruct (Hm s Hs) as (s' & a & Hrun & Hq). eauto.
Qed.

Lemma triple_try {A B} (o : option A) (a : A) (k : A → M B)
    (P : @session PathSegments → Prop) R :
  o = Some a → triple P (k a) R → triple P (bind (try o) k) R.
Proof. intros -> Hk s Hs. exact (Hk s Hs). Qed.

Lemma triple_load {A B} e (field : EndpointInput.t PathSegments → A)
    (k : A → M B) P R :
  (∀ a, triple (holds e P) (k a) R) → triple (holds e P) (bind (load e field) k) R.
Proof.
  intros Hk s Hs. pose proof Hs as (x & Hx & HP).
  unfold bind, load. rewrite Hx. exact (Hk (field x) s Hs).
Qed.

Lemma triple_store_last e
    (set : EndpointInput.t PathSegments → EndpointInput.t PathSegments)
    (P Q : EndpointInput.t PathSegments → Prop) :
  (∀ x, P x → Q (set x)) → triple (holds e P) (store e set) (λ _, holds e Q).
Proof.
  intros Hset s (x & Hx & HP). eexists _, tt. unfold store. rewrite Hx.
  split; [done|]. exists (set x). cbn. rewrite lookup_insert_eq. auto.
Qed.

Lemma triple_store {B} e
    (set : EndpointInput.t PathSegments → EndpointInput.t PathSegments)
    (k : M B) (P Q : EndpointInput.t PathSegments → Prop) R :
  (∀ x, P x → Q (set x)) → triple (holds e Q) k R →
  triple (holds e P) (bind (store e set) (λ _, k)) R.
Proof.
  intros Hset Hk. eapply triple_bind; [by apply triple_store_last|].
  intros ?. exact Hk.
Qed.

Lemma triple_appendType e (t : TypeInput.t) (P : EndpointInput.t PathSegments → Prop) :
  (∀ x types, P x → P (setTypes types x)) →
  triple (holds e P) (appendType e t) (λ _, holds e P).
Proof.
  intros Hset. unfold appendType.
  apply triple_load. intros types. apply triple_store_last. auto.
Qed.

Lemma parseErrorDoc_total (doc : string) : is_Some (parseErrorDoc doc).
Proof.
  unfold parseErrorDoc.
  by destruct (parseDocSection_total doc ErrDocPrefix) as [[r errs] ->].
Qed.

Lemma parsePathDoc_total (doc : string) : is_Some (parsePathDoc doc).
Proof.
  unfold parsePathDoc.
  by destruct (parseDocSection_total doc PathDocPrefix) as [[r errs] ->].
Qed.

(** The endpoint case ends without a panic when a method is declared, and
    leaves the first method in [Method]. *)
Lemma correlateEndpoint_method (o : overlays) (r : Endpoint.t PathT) (ov : overlay)
    (m : string) (ms : list string) :
  get o (Endpoint.File r) = Some ov →
  Endpoint.HTTPMethods r = m :: ms →
  triple (holds (endpoint ov) (λ _, True))
    (correlateEndpoint toPathSegments o r)
    (λ _, holds (endpoint ov) (λ x, EndpointInput.Method x = m)).
Proof.
  intros Hget Hm. unfold correlateEndpoint. rewrite Hget, Hm.
  destruct (parseErrorDoc_total (Endpoint.Doc r)) as [parsed1 Hparsed1].
  set (e := endpoint ov).
  set (is_m := λ x : EndpointInput.t PathSegments, EndpointInput.Method x = m).
  assert (Hkeep : ∀ x types, is_m x → is_m (setTypes types x))
    by (by intros [] ?).
  eapply triple_try; [exact Hparsed1|].
  apply (triple_store _ _ _ _ (λ _, True)); [done|].
  apply (triple_store _ _ _ _ (λ _, True)); [done|].
  apply triple_load. intros doc.
  destruct (parsePathDoc_total doc) as [parsed2 Hparsed2].
  eapply triple_try; [exact Hparsed2|].
  apply (triple_store _ _ _ _ (λ _, True)); [done|].
  apply (triple_store _ _ _ _ (λ _, True)); [done|].
  eapply triple_try; [reflexivity|].
  apply (triple_store _ _ _ _ is_m); [by intros []|].
  apply (triple_store _ _ _ _ is_m); [by intros []|].
  apply (triple_store _ _ _ _ is_m); [by intros []|].
  apply (triple_store _ _ _ _ is_m); [by intros []|].
  apply (triple_store _ _ _ _ is_m); [by intros []|].
  apply (triple_bind _ _ _ (λ _, holds e is_m)).
  - destruct (deref (Endpoint.Request r)); try apply triple_ret.
    apply (triple_store _ _ _ _ is_m); [by intros []|].
    destruct (Endpoint.RequestEncoding r) as [|params encs]; [apply triple_ret|].
    cbn [length]. replace (0 <? Z.of_nat (S (length encs))) with true by bounds.
    eapply triple_try; [reflexivity|]. by apply triple_appendType.
  - intros _.
    destruct (deref (Endpoint.Response r)); try apply triple_ret.
    apply (triple_store _ _ _ _ is_m); [by intros []|].
    destruct (Endpoint.ResponseEncoding r); [|apply triple_ret].
    by apply triple_appendType.
Qed.

(** *** Diagnostics *)

Lemma quiet_ret {A} (a : A) : quiet (PathSegments := PathSegments) (ret a).
Proof. by intros s. Qed.

Lemma quiet_try {A} (o : option A) : quiet (PathSegments := PathSegments) (try o).
Proof. intros s. by destruct o. Qed.

Lemma quiet_load {A} e (field : EndpointInput.t PathSegments → A) :
  quiet (load e field).
Proof. intros s. unfold load. by destruct (heap s !! e). Qed.

Lemma quiet_store e (set : EndpointInput.t PathSegments → EndpointInput.t PathSegments) :
  quiet (store e set).
Proof. intros s. unfold store. by destruct (heap s !! e). Qed.

Lemma quiet_bind {A B} (m : @M PathSegments A) (k : A → M B) :
  quiet m → (∀ a, quiet (k a)) → quiet (bind m k).
Proof.
  intros Hm Hk s. unfold bind. destruct (Hm s) as [He Hr].
  destruct (m s) as [s1 [a|v]]; cbn in He, Hr |- *.
  - destruct (Hk a s1) as [He' Hr']. split; [by rewrite He'|done].
  - split; [done|]. intros [= ->]. by apply Hr.
Qed.

Lemma quiet_forEach {A} (l : list A) (body : A → @M PathSegments unit) :
  (∀ x, quiet (body x)) → quiet (forEach l body).
Proof.
  intros Hbody. induction l as [|x l IH]; [apply quiet_ret|].
  cbn. apply quiet_bind; [apply Hbody|by intros _].
Qed.

Lemma quiet_appendType e (t : TypeInput.t) :
  quiet (PathSegments := PathSegments) (appendType e t).
Proof.
  apply quiet_bind; [apply quiet_load|]. intros ?. apply quiet_store.
Qed.

Ltac quiet_steps :=
  repeat first
    [ apply quiet_ret | apply quiet_store | apply quiet_load | apply quiet_try
    | apply quiet_appendType
    | apply quiet_bind; [|intros ?]
    | match goal with
      | |- quiet (match ?x with _ => _ end) => destruct x
      | |- quiet (if ?b then _ else _) => destruct b
      end ].

Lemma quiet_correlateEndpoint (o : overlays) (r : Endpoint.t PathT) :
  quiet (correlateEndpoint toPathSegments o r).
Proof. unfold correlateEndpoint. quiet_steps. Qed.

Lemma quiet_correlateTypeDecl (o : overlays) (d : TypeDecl.t) :
  quiet (PathSegments := PathSegments) (correlateTypeDecl o d).
Proof. unfold correlateTypeDecl. quiet_steps. Qed.

(** The diagnostics at the end of the packages, when no run-time error
    ended them. *)
Lemma forEach_package_errs (o : overlays) (pkgs : list (@packagePass PathT)) :
  ∀ s, (forEach pkgs (correlatePackage toPathSegments o) s).2 ≠ Panic RuntimeError →
       errs (forEach pkgs (correlatePackage toPathSegments o) s).1
       = errs s ++ reportedBy pkgs.
Proof.
  induction pkgs as [|p pkgs IH]; intros s Hrun.
  - cbn. by rewrite app_nil_r.
  - cbn [forEach reportedBy] in Hrun |- *. unfold bind at 1 in Hrun. unfold bind at 1.
    destruct p as [diags [resources decls]|diags].
    + unfold correlatePackage at 1 in Hrun. unfold correlatePackage at 1.
      unfold bind at 1 in Hrun. unfold bind at 1. cbn [call fst snd] in Hrun |- *.
      assert (Hq : quiet (PathSegments := PathSegments)
                (bind (forEach resources (correlateResource toPathSegments o))
                   (λ _, forEach decls (correlateDecl o)))).
      { apply quiet_bind; [|intros _]; apply quiet_forEach.
        - intros [r|]; [apply quiet_correlateEndpoint|apply quiet_ret].
        - intros [d|]; [apply quiet_correlateTypeDecl|apply quiet_ret]. }
      specialize (Hq (mkSession (heap s) (errs s ++ diags))).
      destruct (bind (forEach resources (correlateResource toPathSegments o)) _ _)
        as [s1 [[]|v]]; cbn in Hq.
      * rewrite IH by done. destruct Hq as [-> _]. cbn. by rewrite app_assoc.
      * destruct Hq as [_ Hv]. by destruct v.
    + done.
Qed.

Lemma pass_errs (o : overlays) (services : list ServiceInput)
    (loading : collab unit) (pkgs : list (@packagePass PathT)) (h : gmap loc (EndpointInput.t PathSegments)) :
  (pass toPathSegments o services loading pkgs (mkSession h [])).2 ≠ Panic RuntimeError →
  errs (pass toPathSegments o services loading pkgs (mkSession h [])).1
  = reported loading pkgs.
Proof.
  unfold pass, reported, bind, call.
  destruct loading as [diags []|diags]; cbn [heap errs app]; [|done].
  pose proof (forEach_package_errs o pkgs (mkSession h diags)) as Hpk.
  destruct (forEach pkgs (correlatePackage toPathSegments o) (mkSession h diags))
    as [s [[]|v]]; cbn in Hpk |- *; intros Hrun; apply Hpk; [done|].
  intros [= ->]. by apply Hrun.
Qed.

Lemma pass_result (o : overlays) (services : list ServiceInput)
    (loading : collab unit) (pkgs : list (@packagePass PathT)) s s' rtn :
  pass toPathSegments o services loading pkgs s = (s', Ok rtn) →
  rtn = SyncResult.mk services [].
Proof.
  unfold pass. unfold bind at 1.
  destruct (call loading s) as [s1 [[]|v]]; [|done].
  unfold bind at 1.
  destruct (forEach pkgs (correlatePackage toPathSegments o) s1) as [s2 [[]|v]]; [|done].
  by intros [= _ <-].
Qed.

End PassFacts.

(** *** The names in [Types] *)

Section StructCase.
Context {PathSegments : Type}.
Implicit Types (s : @session PathSegments) (e : loc).

Lemma triple_pre {A} (m : M A) (P P' : @session PathSegments → Prop) Q :
  (∀ s, P s → P' s) → triple P' m Q → triple P m Q.
Proof. intros Himp Hm s Hs. apply Hm, Himp, Hs. Qed.

Lemma holds_impl e (P Q : EndpointInput.t PathSegments → Prop) s :
  (∀ x, P x → Q x) → holds e P s → holds e Q s.
Proof. intros Himp (x & Hx & HP). exists x. auto. Qed.

Lemma triple_load_eq {A B} e (field : EndpointInput.t PathSegments → A)
    (k : A → M B) P R :
  (∀ a, triple (holds e (λ x, P x ∧ field x = a)) (k a) R) →
  triple (holds e P) (bind (load e field) k) R.
Proof.
  intros Hk s (x & Hx & HP). unfold bind, load. rewrite Hx.
  apply (Hk (field x) s). by exists x.
Qed.

Lemma containsName_false (types : list TypeInput.t) (name : string) :
  containsName types name = false → name ∉ map TypeInput.Name types.
Proof.
  unfold containsName. induction types as [|t types IH]; cbn.
  - intros _. apply not_elem_of_nil.
  - intros [Ht Hrest]%orb_false_iff. apply not_elem_of_cons. split; [|by apply IH].
    apply String.eqb_neq in Ht. congruence.
Qed.

(** The struct case adds a name only when it is new: it keeps the names of
    [Types] distinct. *)
Lemma correlateTypeDecl_unique (o : overlays) (d : TypeDecl.t) (ov : overlay) :
  get o (TypeDecl.File d) = Some ov →
  triple (holds (endpoint ov)
            (λ x : EndpointInput.t PathSegments,
               NoDup (map TypeInput.Name (EndpointInput.Types x))))
    (correlateTypeDecl o d)
    (λ _, holds (endpoint ov)
            (λ x, NoDup (map TypeInput.Name (EndpointInput.Types x)))).
Proof.
  intros Hget. unfold correlateTypeDecl. rewrite Hget.
  destruct (TypeDecl.Type_ d); try apply triple_ret.
  apply triple_load_eq. intros types.
  destruct (containsName types (TypeDecl.Name d)) eqn:Hname.
  - eapply triple_pre; [|apply triple_ret].
    intros s. apply holds_impl. by intros x [? _].
  - unfold appendType. apply triple_load_eq. intros types'.
    apply triple_store_last. intros [] [[Hnodup Htypes] Htypes']. cbn in *.
    subst types types'. rewrite map_app. cbn.
    apply NoDup_app. split; [done|]. split; [|apply NoDup_singleton].
    intros name Hin ->%list_elem_of_singleton.
    by apply containsName_false in Hname.
Qed.
End StructCase.

(** C5 (amended).  When [newOverlays] succeeds and the pass meets no
    run-time error of its own, [parseCode] returns a [SyncResult] with the
    services and no error, whether the collaborator bails out or not; and
    [Errors] is [validationErrors] of the diagnostics the collaborator has
    reported until then. *)
Theorem parseCode_returns_result {PathT PathSegments ServiceInput : Type}
    (toPathSegments : PathT → gmap string string → PathSegments) (reraise : bool)
    (o : overlays) (services : list ServiceInput) (loading : collab unit)
    (pkgs : list (@packagePass PathT)) (h : gmap loc (EndpointInput.t PathSegments)) :
  (pass toPathSegments o services loading pkgs (mkSession h [])).2 ≠ Panic RuntimeError →
  ∃ h', parseCode toPathSegments reraise (inr o) services loading pkgs h
        = (h', Returned (Some (SyncResult.mk services
                                 (validationErrors o (reported loading pkgs)))) None).
Proof.
  intros Hrun. pose proof (pass_errs toPathSegments o services loading pkgs h Hrun) as Herrs.
  unfold parseCode.
  destruct (pass toPathSegments o services loading pkgs (mkSession h [])) as [s r] eqn:Hpass.
  cbn in Hrun, Herrs. exists (heap s).
  destruct r as [rtn|[|]]; cbn.
  - by rewrite (pass_result _ _ _ _ _ _ _ _ Hpass), Herrs.
  - by rewrite Herrs.
  - done.
Qed.

Lemma parseCode_returns_result_witness :
  ∃ h', parseCode keepPath true (inr oneTarget) ["svc"] (Returns [] tt) abortedRun oneRecord
        = (h', Returned (Some (SyncResult.mk ["svc"]
                                 ["a.go: unused import"; "b.go: syntax error"])) None).
Proof.
  apply (parseCode_returns_result keepPath true oneTarget ["svc"] (Returns [] tt)
           abortedRun oneRecord).
  vm_compute. discriminate.
Defined.

Lemma parseCode_counterexample :
  parseCode keepPath true (inl "no app") ["svc"] (Returns [] tt) abortedRun oneRecord
  = (oneRecord, Returned None (Some "no app"))
  ∧ ¬ (∃ res err,
          (parseCode keepPath true (inl "no app") ["svc"] (Returns [] tt)
             abortedRun oneRecord).2
          = Returned (Some res) err).
Proof. split; [reflexivity|]. intros (res & err & H). vm_compute in H. discriminate. Qed.

(** C8.  An endpoint or a type declaration of a file that no overlay claims
    leaves the session as it is: no output record changes and no diagnostic
    is added. *)
Theorem unclaimed_file_untouched {PathT PathSegments : Type}
    (toPathSegments : PathT → gmap string string → PathSegments)
    (o : overlays) (s : @session PathSegments) :
  (∀ r : Endpoint.t PathT,
     get o (Endpoint.File r) = None →
     correlateEndpoint toPathSegments o r s = (s, Ok tt))
  ∧ (∀ d : TypeDecl.t,
       get o (TypeDecl.File d) = None → correlateTypeDecl o d s = (s, Ok tt)).
Proof.
  split.
  - intros r Hget. unfold correlateEndpoint. by rewrite Hget.
  - intros d Hget. unfold correlateTypeDecl. rewrite Hget.
    by destruct (TypeDecl.Type_ d).
Qed.

Lemma unclaimed_file_untouched_witness :
  correlateEndpoint keepPath oneTarget stray (mkSession oneRecord ["earlier"])
  = (mkSession oneRecord ["earlier"], Ok tt)
  ∧ correlateTypeDecl oneTarget strayDecl (mkSession oneRecord ["earlier"])
    = (mkSession oneRecord ["earlier"], Ok tt).
Proof.
  split.
  - apply (proj1 (unclaimed_file_untouched keepPath oneTarget _)). reflexivity.
  - apply (proj2 (unclaimed_file_untouched keepPath oneTarget _)). reflexivity.
Defined.

(** C9.  For an endpoint of a claimed file with at least one HTTP method,
    the endpoint case ends without a panic and [Method] of the record is the
    first method declared. *)
Theorem first_method_wins {PathT PathSegments : Type}
    (toPathSegments : PathT → gmap string string → PathSegments)
    (o : overlays) (r : Endpoint.t PathT) (ov : overlay)
    (s : @session PathSegments) (x : EndpointInput.t PathSegments)
    (m : string) (ms : list string) :
  get o (Endpoint.File r) = Some ov →
  heap s !! endpoint ov = Some x →
  Endpoint.HTTPMethods r = m :: ms →
  ∃ s' x',
    correlateEndpoint toPathSegments o r s = (s', Ok tt)
    ∧ heap s' !! endpoint ov = Some x'
    ∧ EndpointInput.Method x' = m.
Proof.
  intros Hget Hx Hm.
  destruct (correlateEndpoint_method toPathSegments o r ov m ms Hget Hm s)
    as (s' & [] & Hrun & x' & Hx' & Hmethod); [by exists x|].
  by exists s', x'.
Qed.

Lemma first_method_wins_witness :
  ∃ s' x',
    correlateEndpoint keepPath oneTarget echo (mkSession oneRecord []) = (s', Ok tt)
    ∧ heap s' !! endpoint (mkOverlay 0%nat) = Some x'
    ∧ EndpointInput.Method x' = "GET".
Proof.
  apply (first_method_wins keepPath oneTarget echo (mkOverlay 0%nat)
           (mkSession oneRecord []) blank "GET" ["POST"]); reflexivity.
Defined.

(** C4 (the code at the failing input).  For an endpoint whose request and
    response are the same named type [Foo], both with an encoding, [Types]
    ends with two records of the name [Foo]. *)
Theorem same_type_twice :
  ∃ s x,
    correlateEndpoint keepPath oneTarget echo (mkSession oneRecord []) = (s, Ok tt)
    ∧ heap s !! 0%nat = Some x
    ∧ map TypeInput.Name (EndpointInput.Types x) = ["Foo"; "Foo"].
Proof.
  eexists _, _. split; [vm_compute; reflexivity|]. split; reflexivity.
Qed.

(** * The parser, function by function *)

Lemma Cut_before (s : string) : colon ∉ bytes (Cut s colon).1.1.
Proof.
  induction s as [|c s IH]; cbn; [apply not_elem_of_nil|].
  destruct (Ascii.eqb c colon) eqn:Hc; [apply not_elem_of_nil|].
  destruct (Cut s colon) as [[before after] found]. cbn in IH |- *.
  apply not_elem_of_cons. split; [|done].
  apply Ascii.eqb_neq in Hc. congruence.
Qed.

Lemma substring_bytes (s : string) :
  ∀ n m c, c ∈ bytes (String.substring n m s) → c ∈ bytes s.
Proof.
  induction s as [|a s IH]; intros n m c.
  - by destruct n, m.
  - destruct n as [|n]; cbn.
    + destruct m as [|m]; cbn; [by intros ?%elem_of_nil|].
      intros [->|Hc]%elem_of_cons; [by left|]. right. by apply (IH 0%nat m).
    + intros Hc. right. by apply (IH n m).
Qed.

Lemma TrimPrefix_bytes (s prefix : string) (c : ascii) :
  c ∈ bytes (TrimPrefix s prefix) → c ∈ bytes s.
Proof.
  unfold TrimPrefix. destruct (HasPrefix s prefix); [|done]. apply substring_bytes.
Qed.

Lemma keyOf_clean (line : string) :
  (colon ∉ bytes (keyOf line)) ∧ TrimSpace (keyOf line) = keyOf line.
Proof.
  split; [|apply TrimSpace_idemp].
  intros Hc. apply (Cut_before line).
  apply (TrimPrefix_bytes _ "-"). by apply TrimSpace_bytes.
Qed.

Lemma appendDoc_keys (errs errs' : list DocEntry.t) (line : string) :
  appendDoc errs line = Some errs' → map DocEntry.Key errs' = map DocEntry.Key errs.
Proof.
  unfold appendDoc, index, assign.
  destruct (Z.of_nat (length errs) - 1 <? 0); [done|].
  destruct (errs !! Z.to_nat (Z.of_nat (length errs) - 1)) as [e|] eqn:He; [|done].
  cbn. destruct (_ && _); [|done]. intros [= <-].
  rewrite list_fmap_insert. cbn. apply list_insert_id.
  by rewrite list_lookup_fmap, He.
Qed.

Lemma entryStep_keys (errs errs' : list DocEntry.t) (line : string) :
  entryStep errs line = Some errs' →
  map DocEntry.Key errs'
  = map DocEntry.Key errs ++ (if hasColon line then [keyOf line] else []).
Proof.
  unfold entryStep, hasColon, keyOf.
  destruct (Cut line colon) as [[key doc] ok]. cbn.
  destruct ok.
  - intros [= <-]. by rewrite map_app.
  - rewrite app_nil_r. destruct (_ && _).
    + apply appendDoc_keys.
    + by intros [= <-].
Qed.

Lemma entryLoop_keys_from (ls : list string) :
  ∀ errs, ∃ errs',
    entryLoop errs ls = Some errs'
    ∧ map DocEntry.Key errs'
      = map DocEntry.Key errs ++ map keyOf (filter (λ l, hasColon l = true) ls).
Proof.
  induction ls as [|line ls IH]; intros errs.
  - exists errs. by rewrite app_nil_r.
  - cbn [entryLoop]. destruct (entryStep_total errs line) as [errs1 Hstep].
    rewrite Hstep. cbn [mbind option_bind].
    destruct (IH errs1) as (errs' & Hloop & Hkeys).
    exists errs'. split; [done|].
    rewrite Hkeys, (entryStep_keys _ _ _ Hstep), <- app_assoc. f_equal.
    rewrite filter_cons. destruct (hasColon line) eqn:Hc.
    + by rewrite decide_True.
    + by rewrite decide_False.
Qed.

(** X1 (second loop of [parseDocSection]). For every list of lines the loop
    returns, and it makes exactly one entry per line that holds a colon, in
    the order of the lines: the keys of the entries are what is before the
    first colon of these lines, without one leading dash and trimmed.  Lines
    without a colon make no entry. *)
Theorem entryLoop_keys (ls : list string) :
  ∃ errs,
    entryLoop [] ls = Some errs
    ∧ map DocEntry.Key errs = map keyOf (filter (λ l, hasColon l = true) ls)
    ∧ length errs = length (filter (λ l, hasColon l = true) ls).
Proof.
  destruct (entryLoop_keys_from ls []) as (errs & Hloop & Hkeys).
  exists errs. split; [done|]. split; [done|].
  rewrite <- (length_map DocEntry.Key errs), Hkeys. apply length_map.
Qed.

Lemma entryLoop_app (l1 l2 : list string) :
  ∀ errs, entryLoop errs (l1 ++ l2) = entryLoop errs l1 ≫= λ errs1, entryLoop errs1 l2.
Proof.
  induction l1 as [|line l1 IH]; intros errs; [done|].
  cbn. destruct (entryStep errs line) as [errs1|]; [|done]. cbn. apply IH.
Qed.

Lemma entryStep_blank (errs : list DocEntry.t) : entryStep errs "" = Some errs.
Proof. unfold entryStep. cbn. by rewrite andb_false_r. Qed.

Lemma entryStep_orphan (line : string) :
  hasColon line = false → entryStep [] line = Some [].
Proof.
  unfold entryStep, hasColon. destruct (Cut line colon) as [[key doc] ok].
  cbn. by intros ->.
Qed.

(** X2 (second loop of [parseDocSection]). An empty line changes nothing,
    wherever it stands among the lines; and lines without a colon that come
    before the first entry are dropped: the loop gives the same entries
    without them. *)
Theorem entryLoop_ignored (errs : list DocEntry.t) (orphans l1 l2 : list string) :
  entryLoop errs (l1 ++ "" :: l2) = entryLoop errs (l1 ++ l2)
  ∧ (Forall (λ l, hasColon l = false) orphans →
     entryLoop [] (orphans ++ l2) = entryLoop [] l2).
Proof.
  split.
  - rewrite !entryLoop_app. destruct (entryLoop errs l1) as [errs1|]; [|done].
    cbn [mbind option_bind entryLoop]. by rewrite entryStep_blank.
  - induction 1 as [|line orphans Hline _ IH]; [done|].
    cbn. by rewrite (entryStep_orphan _ Hline).
Qed.

Lemma entryLoop_ignored_witness :
  entryLoop [] (["plain"; "  still plain"] ++ ["- A: b"]) = entryLoop [] ["- A: b"].
Proof.
  apply (proj2 (entryLoop_ignored [] ["plain"; "  still plain"] [] ["- A: b"])).
  by repeat constructor.
Defined.

Lemma Cut_before_bytes (s : string) (c : ascii) :
  c ∈ bytes (Cut s colon).1.1 → c ∈ bytes s.
Proof.
  induction s as [|a s IH]; cbn; [done|].
  destruct (Ascii.eqb a colon); [by intros ?%elem_of_nil|].
  destruct (Cut s colon) as [[before after] found]. cbn in IH |- *.
  intros [->|Hc]%elem_of_cons; [by left|]. right. by apply IH.
Qed.

Lemma keyOf_bytes (line : string) (c : ascii) :
  c ∈ bytes (keyOf line) → c ∈ bytes line.
Proof.
  intros Hc. apply Cut_before_bytes, (TrimPrefix_bytes _ "-"). by apply TrimSpace_bytes.
Qed.

(** What the loop writes is a line of the text, as it is or trimmed. *)
Lemma scanPure_lines (section : string) (rest : list string) :
  ∀ (i : Z) (prev : string) (s e : Z) out s' e',
    scanPure section i prev s e rest = (out, s', e') →
    Forall (λ x, ∃ l, l ∈ rest ∧ (x = l ∨ x = TrimSpace l)) out.
Proof.
  induction rest as [|line rest IH]; intros i prev s e out s' e' Hp.
  - cbn in Hp. by injection Hp as <- <- <-.
  - assert (Hnext : ∀ x j p s0 e0 out1 s1 e1,
      x = line ∨ x = TrimSpace line →
      scanPure section j p s0 e0 rest = (out1, s1, e1) →
      Forall (λ x, ∃ l, l ∈ line :: rest ∧ (x = l ∨ x = TrimSpace l)) (x :: out1)).
    { intros x j p s0 e0 out1 s1 e1 Hx Hrec. constructor.
      - exists line. split; [by left|done].
      - eapply Forall_impl; [exact (IH _ _ _ _ _ _ _ Hrec)|].
        intros y (l & Hl & Hy). exists l. split; [by right|done]. }
    cbn [scanPure] in Hp.
    destruct (labelLine section line).
    + destruct (scanPure section (i + 1) (TrimSpace line) i i rest)
        as [[out1 s1] e1] eqn:Hrec.
      injection Hp as <- <- <-. eapply Hnext; [by right|exact Hrec].
    + destruct (s =? -1).
      * destruct (scanPure section (i + 1) line s i rest) as [[out1 s1] e1] eqn:Hrec.
        injection Hp as <- <- <-. eapply Hnext; [by left|exact Hrec].
      * destruct (String.eqb line "" && String.eqb prev "").
        -- injection Hp as <- <- <-. constructor; [|done].
           exists line. split; [by left|by right].
        -- destruct (scanPure section (i + 1) (TrimSpace line) s
                       (if terminator line then i - 1 else i) rest)
             as [[out1 s1] e1] eqn:Hrec.
           injection Hp as <- <- <-. eapply Hnext; [by right|exact Hrec].
Qed.

Lemma oneLine_bytes (s : string) : oneLine s ↔ LF ∉ bytes s.
Proof. apply Split_whole. Qed.

(** X3 ([parseDocSection]). For every text and label the function returns,
    and the key of every entry it returns holds no colon and no line break
    and is trimmed: trimming it again changes nothing. *)
Theorem parseDocSection_keys (doc section : string) :
  ∃ r errs,
    parseDocSection doc section = Some (r, errs)
    ∧ Forall (λ e, (colon ∉ bytes (DocEntry.Key e))
                   ∧ (LF ∉ bytes (DocEntry.Key e))
                   ∧ TrimSpace (DocEntry.Key e) = DocEntry.Key e) errs.
Proof.
  unfold parseDocSection.
  destruct (scanPure section 0 "" (-1) (-1) (Split doc LF)) as [[out s] e] eqn:Hp.
  rewrite (parseLines_pure _ _ _ _ _ _ Hp).
  destruct (s =? -1); [by exists doc, []|].
  set (body := take (Z.to_nat (e - s)) (drop (Z.to_nat (s + 1)) out)).
  destruct (entryLoop_keys_from body []) as (errs & -> & Hkeys).
  eexists _, errs. split; [done|].
  apply (Forall_fmap DocEntry.Key
           (λ k, (colon ∉ bytes k) ∧ (LF ∉ bytes k) ∧ TrimSpace k = k)).
  change (DocEntry.Key <$> errs) with (map DocEntry.Key errs).
  rewrite Hkeys. cbn [app map]. apply Forall_forall.
  intros k (line & -> & Hline)%list_elem_of_fmap.
  destruct (keyOf_clean line) as [Hcolon Htrim].
  split; [done|]. split; [|done].
  apply list_elem_of_filter in Hline as [_ Hline].
  assert (Hout : line ∈ out).
  { unfold body in Hline. apply subseteq_take, subseteq_drop in Hline. done. }
  pose proof (scanPure_lines _ _ _ _ _ _ _ _ _ Hp) as Hlines.
  rewrite Forall_forall in Hlines. destruct (Hlines line Hout) as (l & Hl & Hx).
  pose proof (Split_pieces doc LF) as Hone. rewrite Forall_forall in Hone.
  assert (Hl1 : oneLine line).
  { destruct Hx as [->| ->]; [by apply Hone|]. apply TrimSpace_oneLine. by apply Hone. }
  apply oneLine_bytes in Hl1. intros Hc. by apply Hl1, keyOf_bytes.
Qed.

(** The scan from a label on does not depend on where in the text it is:
    moving it by [d] lines moves the bounds by [d]. *)
Lemma scanPure_shift (section : string) (rest : list string) (d : Z) :
  0 <= d →
  ∀ (i : Z) (prev : string) (s e : Z),
    0 <= i → 0 <= s →
    scanPure section (i + d) prev (s + d) (e + d) rest
    = let '(out, s', e') := scanPure section i prev s e rest in
      (out, s' + d, e' + d).
Proof.
  intros Hd. induction rest as [|line rest IH]; intros i prev s e Hi Hs; [done|].
  cbn [scanPure].
  replace (s + d =? -1) with false by bounds.
  replace (s =? -1) with false by bounds.
  replace (i + d + 1) with (i + 1 + d) by lia.
  destruct (labelLine section line).
  - rewrite IH by lia. by destruct (scanPure _ _ _ _ _ rest) as [[??]?].
  - destruct (String.eqb line "" && String.eqb prev "").
    + f_equal. destruct (terminator line); lia.
    + replace (if terminator line then i + d - 1 else i + d)
        with ((if terminator line then i - 1 else i) + d)
        by (destruct (terminator line); lia).
      rewrite IH by lia. by destruct (scanPure _ _ _ _ _ rest) as [[??]?].
Qed.

(** The entries of a text that starts with lines without a label are those
    of the text from its first label line on. *)
Lemma parseLines_from_label (doc doc' section : string)
    (pre post : list string) (lbl : string) :
  Forall (λ l, labelLine section l = false) pre →
  labelLine section lbl = true →
  snd <$> parseLines doc section (pre ++ lbl :: post)
  = snd <$> parseLines doc' section (lbl :: post).
Proof.
  intros Hpre Hlbl.
  destruct (scanPure_before_label section pre (lbl :: post) Hpre 0 "" (-1))
    as (prev' & e2 & Heq).
  cbn [scanPure] in Heq. rewrite Hlbl in Heq.
  destruct (scanPure section 0 "" (-1) (-1) (lbl :: post)) as [[out0 s0] e0] eqn:Hp0.
  cbn [scanPure] in Hp0. rewrite Hlbl in Hp0.
  pose proof (scanPure_shift section post (Z.of_nat (length pre)) ltac:(lia)
                1 (TrimSpace lbl) 0 0 ltac:(lia) ltac:(lia)) as Hshift.
  replace (1 + Z.of_nat (length pre)) with (0 + Z.of_nat (length pre) + 1) in Hshift by lia.
  rewrite Hshift in Heq. clear Hshift.
  destruct (scanPure section 1 (TrimSpace lbl) 0 0 post) as [[out1 s1] e1] eqn:Hrec.
  change (0 + 1) with 1 in Hp0. rewrite Hrec in Hp0. injection Hp0 as <- <- <-.
  assert (Hs1 : 0 <= s1).
  { destruct (scanPure_trimmed section post 1 (TrimSpace lbl) 0 0 out1 s1 e1
                ltac:(lia) ltac:(lia) Hrec) as [_ [->|(k & ? & -> & _)]]; lia. }
  assert (Hp : scanPure section 0 "" (-1) (-1) (lbl :: post)
               = (TrimSpace lbl :: out1, s1, e1)).
  { cbn [scanPure]. rewrite Hlbl. change (0 + 1) with 1. by rewrite Hrec. }
  rewrite (parseLines_pure _ _ _ _ _ _ Heq), (parseLines_pure _ _ _ _ _ _ Hp).
  replace (s1 + Z.of_nat (length pre) =? -1) with false
    by (symmetry; apply Z.eqb_neq; lia).
  replace (s1 =? -1) with false by (symmetry; apply Z.eqb_neq; lia).
  replace (Z.to_nat (e1 + Z.of_nat (length pre) - (s1 + Z.of_nat (length pre))))
    with (Z.to_nat (e1 - s1)) by lia.
  replace (Z.to_nat (s1 + Z.of_nat (length pre) + 1))
    with (length pre + Z.to_nat (s1 + 1))%nat by lia.
  rewrite drop_app_add.
  by destruct (entryLoop [] _).
Qed.

(** X4 ([parseDocSection]). Lines before the first label line have no part
    in the entries: when the lines of [doc] are the lines [pre], none of them
    a label line, followed by the lines of [doc'], both texts give the same
    entries (whether or not a label line follows). *)
Theorem entries_ignore_text_before (doc doc' section : string)
    (pre rest : list string) :
  Split doc LF = pre ++ rest →
  Split doc' LF = rest →
  Forall (λ l, labelLine section l = false) pre →
  snd <$> parseDocSection doc section = snd <$> parseDocSection doc' section.
Proof.
  intros Hdoc Hdoc' Hpre. unfold parseDocSection. rewrite Hdoc, Hdoc'.
  destruct (first_label section rest)
    as [Hnone|(pre2 & lbl & post & -> & Hpre2 & Hlbl)].
  - rewrite !parseLines_no_label; [done|done|by apply Forall_app].
  - rewrite app_assoc.
    rewrite (parseLines_from_label doc doc' section (pre ++ pre2) post lbl)
      by (by apply Forall_app || done).
    by rewrite (parseLines_from_label doc' doc' section pre2 post lbl).
Qed.

Lemma entries_ignore_text_before_witness :
  snd <$> parseDocSection docBlank "errors"
  = snd <$> parseDocSection (Join ["errors:"; "- A: b"; ""; ""; "tail"] LF) "errors".
Proof.
  apply (entries_ignore_text_before docBlank _ "errors" ["a"]
           ["errors:"; "- A: b"; ""; ""; "tail"]);
    [reflexivity|reflexivity|by repeat constructor].
Defined.

(** X5 ([parseDocSection]). When exactly one line of the text is a label
    line, the remainder the function returns holds no section any more:
    applied to its own remainder, the function returns it unchanged, with no
    entry. *)
Theorem parseDocSection_again (doc section : string)
    (pre post : list string) (lbl : string) :
  Split doc LF = pre ++ lbl :: post →
  Forall (λ l, labelLine section l = false) (pre ++ post) →
  labelLine section lbl = true →
  ∃ r errs,
    parseDocSection doc section = Some (r, errs)
    ∧ parseDocSection r section = Some (r, []).
Proof.
  intros Hsplit Hfree Hlbl.
  destruct (parseDocSection_single_label doc section pre post lbl Hsplit Hfree Hlbl)
    as [errs Hparse].
  exists (Join pre LF), errs. split; [done|].
  apply parseLines_no_label.
  destruct pre as [|l pre].
  - repeat constructor. apply labelLine_empty.
  - pose proof (Split_pieces doc LF) as Hone. rewrite Hsplit in Hone.
    apply Forall_app in Hone as [Hone _]. rewrite Split_Join by done.
    by apply Forall_app in Hfree as [Hfree _].
Qed.

Lemma parseDocSection_again_witness :
  ∃ r errs,
    parseDocSection docExample "errors" = Some (r, errs)
    ∧ parseDocSection r "errors" = Some (r, []).
Proof.
  apply (parseDocSection_again docExample "errors" ["Does X."] 
           ["- NotFound: no such thing"; "- Internal: oops"; ""; "more text"] "errors:");
    [reflexivity|by repeat constructor|reflexivity].
Defined.

(** X6 ([parseErrorDoc] then [parsePathDoc], as the endpoint case chains
    them). When the first line that is a label line of either kind is an
    errors label line, and no later line is one, the errors mapper returns
    the lines before it, and the path mapper then finds nothing in that
    remainder: it returns it unchanged with an empty map, whatever path
    section follows the errors label in the text. *)
Theorem path_section_after_errors (doc : string) (pre post : list string) (lbl : string) :
  Split doc LF = pre ++ lbl :: post →
  Forall (λ l, labelLine ErrDocPrefix l = false ∧ labelLine PathDocPrefix l = false) pre →
  labelLine ErrDocPrefix lbl = true →
  Forall (λ l, labelLine ErrDocPrefix l = false) post →
  ∃ errs,
    parseErrorDoc doc = Some (Join pre LF, errs)
    ∧ parsePathDoc (Join pre LF) = Some (Join pre LF, ∅).
Proof.
  intros Hsplit Hpre Hlbl Hpost.
  assert (Hpre1 : Forall (λ l, labelLine ErrDocPrefix l = false) pre)
    by (eapply Forall_impl; [exact Hpre|]; by intros l [? _]).
  assert (Hpre2 : Forall (λ l, labelLine PathDocPrefix l = false) pre)
    by (eapply Forall_impl; [exact Hpre|]; by intros l [_ ?]).
  destruct (parseDocSection_single_label doc ErrDocPrefix pre post lbl Hsplit
              ltac:(by apply Forall_app) Hlbl) as [errs Hparse].
  eexists. unfold parseErrorDoc, parsePathDoc. rewrite Hparse. split; [done|].
  assert (Hfree : parseDocSection (Join pre LF) PathDocPrefix = Some (Join pre LF, [])).
  { apply parseLines_no_label. destruct pre as [|l pre].
    - repeat constructor.
    - pose proof (Split_pieces doc LF) as Hone. rewrite Hsplit in Hone.
      apply Forall_app in Hone as [Hone _]. by rewrite Split_Join. }
  by rewrite Hfree.
Qed.

Lemma path_section_after_errors_witness :
  ∃ errs,
    parseErrorDoc (Join ["Gets x."; "errors:"; "- NotFound: none"; "path params:"; "- id: the id"] LF)
    = Some (Join ["Gets x."] LF, errs)
    ∧ parsePathDoc (Join ["Gets x."] LF) = Some (Join ["Gets x."] LF, ∅).
Proof.
  apply (path_section_after_errors _ ["Gets x."]
           ["- NotFound: none"; "path params:"; "- id: the id"] "errors:");
    [reflexivity|by repeat constructor|reflexivity|by repeat constructor].
Defined.

Lemma foldl_insert_lookup (docs : list DocEntry.t) (k : string) :
  ∀ m : gmap string string,
    foldl (λ rtn d, <[DocEntry.Key d := DocEntry.Doc d]> rtn) m docs !! k
    = match last (filter (λ d, DocEntry.Key d = k) docs) with
      | Some d => Some (DocEntry.Doc d)
      | None => m !! k
      end.
Proof.
  induction docs as [|d docs IH] using rev_ind; intros m; [done|].
  rewrite foldl_app, filter_app. cbn [foldl].
  rewrite filter_cons, filter_nil.
  destruct (decide (DocEntry.Key d = k)) as [<-|Hne].
  - by rewrite last_snoc, lookup_insert_eq.
  - rewrite app_nil_r, lookup_insert_ne by done. apply IH.
Qed.

(** X7 ([parsePathDoc]). The map that the path mapper returns binds a key
    to the doc of the last entry with that key among the entries of
    [parseDocSection], and binds no other key: of two entries with one key
    the later one wins. *)
Theorem parsePathDoc_lookup (doc : string) :
  ∃ r docs paths,
    parseDocSection doc PathDocPrefix = Some (r, docs)
    ∧ parsePathDoc doc = Some (r, paths)
    ∧ ∀ k, paths !! k
           = DocEntry.Doc <$> last (filter (λ d, DocEntry.Key d = k) docs).
Proof.
  destruct (parseDocSection_total doc PathDocPrefix) as [[r docs] Hparse].
  eexists r, docs, _. split; [done|]. unfold parsePathDoc. rewrite Hparse.
  split; [done|]. intros k. rewrite foldl_insert_lookup.
  by destruct (last _).
Qed.

(** X8 ([deref]). The result of [deref] is never a pointer type; [deref]
    applied twice is [deref]; and any number of pointers around a type gives
    the same result as the type itself. *)
Theorem deref_unwraps (p : schemaType) :
  (∀ q, deref p ≠ PointerType q)
  ∧ deref (deref p) = deref p
  ∧ ∀ n, deref (Nat.iter n PointerType p) = deref p.
Proof.
  split; [|split].
  - induction p; cbn; done.
  - induction p; cbn; done.
  - intros n. induction n as [|n IH]; [done|]. cbn. exact IH.
Qed.

(** X9 ([errIDToCode]). The table holds 17 identifiers; it maps [OK] to
    200, and every other identifier it holds to a status between 400 and
    504. *)
Theorem errIDToCode_statuses :
  errIDToCode !! "OK" = Some 200
  ∧ size errIDToCode = 17%nat
  ∧ ∀ (id : string) (code : Z),
      errIDToCode !! id = Some code →
      (id = "OK" ∧ code = 200) ∨ (id ≠ "OK" ∧ 400 <= code <= 504).
Proof.
  split; [reflexivity|]. split; [by vm_compute|].
  intros id code H%elem_of_list_to_map_2.
  repeat (apply elem_of_cons in H as [[= -> ->]|H]; [(right; split; [done|lia]) || by left|]).
  by apply elem_of_nil in H.
Qed.

Lemma errIDToCode_statuses_witness :
  ("NotFound" = "OK" ∧ 404 = 200) ∨ ("NotFound" ≠ "OK" ∧ 400 <= 404 <= 504).
Proof.
  apply (proj2 (proj2 errIDToCode_statuses) "NotFound" 404). reflexivity.
Defined.

Section Run.
Context {PathT PathSegments : Type}.
Variable toPathSegments : PathT → gmap string string → PathSegments.
Implicit Types (s : @session PathSegments) (e : loc) (x : EndpointInput.t PathSegments).

Lemma put_id e x s : heap s !! e = Some x → put e x s = s.
Proof. intros H. destruct s. unfold put. cbn in *. by rewrite insert_id. Qed.

Lemma put_lookup e x s : heap (put e x s) !! e = Some x.
Proof. apply lookup_insert_eq. Qed.

Lemma store_put e set x s : store e set (put e x s) = (put e (set x) s, Ok tt).
Proof.
  unfold store, put. cbn. rewrite lookup_insert_eq. by rewrite insert_insert_eq.
Qed.

Lemma store_bind {B} e set (k : unit → M B) x s :
  bind (store e set) k (put e x s) = k tt (put e (set x) s).
Proof. unfold bind. by rewrite store_put. Qed.

Lemma load_bind {A B} e (field : EndpointInput.t PathSegments → A) (k : A → M B) x s :
  bind (load e field) k (put e x s) = k (field x) (put e x s).
Proof. unfold bind, load. by rewrite put_lookup. Qed.

Lemma try_bind {A B} (a : A) (k : A → @M PathSegments B) s :
  bind (try (Some a)) k s = k a s.
Proof. done. Qed.


Lemma ret_bind {A B} (a : A) (k : A → @M PathSegments B) s :
  bind (ret a) k s = k a s.
Proof. done. Qed.

Lemma bind_assoc {A B C} (m : @M PathSegments A) (f : A → M B) (k : B → M C) s :
  bind (bind m f) k s = bind m (λ a, bind (f a) k) s.
Proof. unfold bind. by destruct (m s) as [s1 [a|v]]. Qed.

Ltac run :=
  repeat first
    [ rewrite bind_assoc
    | rewrite store_bind
    | rewrite load_bind
    | rewrite try_bind
    | rewrite ret_bind
    | rewrite store_put
    | progress cbv beta
    | progress cbn [setDoc setErrors setName setMethod setVisibility setLanguage
                    setPath setTypes setRequestType setResponseType
                    EndpointInput.Doc EndpointInput.Types fst snd] ].

(** The endpoint case, run on a record that exists. *)
Lemma correlateEndpoint_run (o : overlays) (r : Endpoint.t PathT) (ov : overlay)
    (p1 : string * list ErrorInput.t) (p2 : string * gmap string string)
    (m : string) (ms : list string) x s :
  get o (Endpoint.File r) = Some ov →
  parseErrorDoc (Endpoint.Doc r) = Some p1 →
  parsePathDoc p1.1 = Some p2 →
  Endpoint.HTTPMethods r = m :: ms →
  correlateEndpoint toPathSegments o r (put (endpoint ov) x s)
  = (put (endpoint ov) (endpointRecord toPathSegments r x p1 p2 m) s, Ok tt).
Proof.
  intros Hget Hp1 Hp2 Hm. unfold correlateEndpoint. rewrite Hget, Hp1, Hm.
  destruct x as [a1 a2 a3 a4 a5 a6 a7 a8 a9 a10].
  unfold endpointRecord, requestTypes, responseTypes, typeName, appendType.
  run. rewrite Hp2. run.
  change (index (m :: ms) 0) with (Some m). run.
  destruct (deref (Endpoint.Request r)), (deref (Endpoint.Response r));
    destruct (Endpoint.RequestEncoding r) as [|params encs],
             (Endpoint.ResponseEncoding r) as [rparams|];
    cbn [length]; try change (0 <? Z.of_nat 0) with false;
    try replace (0 <? Z.of_nat (S (length encs))) with true by bounds;
    try change (index (params :: encs) 0) with (Some params);
    run; try reflexivity.
Qed.

(** X10 (the [case *api.Endpoint] of [parseCode]). For an endpoint of a
    claimed file with at least one method, the case ends normally and leaves
    in [Types] the record of the request (when the request is a named type
    behind its pointers and there is a request encoding) followed by the
    record of the response (when it is a named type and the response
    encoding is not nil), and nothing else: what [Types] held before is
    dropped, and at most two records are left.  [RequestType] and
    [ResponseType] are the names of these types, whether or not an encoding
    exists, and keep their old value when the type is not a named type. *)
Theorem endpoint_types (o : overlays) (r : Endpoint.t PathT) (ov : overlay)
    (m : string) (ms : list string) x s :
  get o (Endpoint.File r) = Some ov →
  heap s !! endpoint ov = Some x →
  Endpoint.HTTPMethods r = m :: ms →
  ∃ s' x',
    correlateEndpoint toPathSegments o r s = (s', Ok tt)
    ∧ heap s' !! endpoint ov = Some x'
    ∧ EndpointInput.Types x' = requestTypes r ++ responseTypes r
    ∧ (length (EndpointInput.Types x') ≤ 2)%nat
    ∧ EndpointInput.RequestType x'
      = typeName (Endpoint.Request r) (EndpointInput.RequestType x)
    ∧ EndpointInput.ResponseType x'
      = typeName (Endpoint.Response r) (EndpointInput.ResponseType x).
Proof.
  intros Hget Hx Hm.
  destruct (parseErrorDoc_total (Endpoint.Doc r)) as [p1 Hp1].
  destruct (parsePathDoc_total p1.1) as [p2 Hp2].
  pose proof (correlateEndpoint_run o r ov p1 p2 m ms x s Hget Hp1 Hp2 Hm) as Hrun.
  rewrite (put_id _ _ _ Hx) in Hrun at 1. rewrite Hrun.
  eexists _, _. split; [done|]. split; [apply put_lookup|].
  split; [done|]. split; [|done]. cbn. unfold requestTypes, responseTypes.
  rewrite length_app.
  destruct (deref (Endpoint.Request r)), (deref (Endpoint.Response r));
    destruct (Endpoint.RequestEncoding r), (Endpoint.ResponseEncoding r); cbn; lia.
Qed.

(** X11 (the [case *api.Endpoint] of [parseCode]). For an endpoint of a
    claimed file with at least one method, the record ends with: [Errors],
    the entries of the errors section of the endpoint's doc; [Doc], the
    remainder of the path mapper applied to the remainder of the errors
    mapper; [Path], [toPathSegments] of the endpoint's path and the map of the
    path mapper; the name and the access of the endpoint; and the language
    GO. *)
Theorem endpoint_fields (o : overlays) (r : Endpoint.t PathT) (ov : overlay)
    (m : string) (ms : list string) x s :
  get o (Endpoint.File r) = Some ov →
  heap s !! endpoint ov = Some x →
  Endpoint.HTTPMethods r = m :: ms →
  ∃ d1 errors d2 paths s' x',
    parseErrorDoc (Endpoint.Doc r) = Some (d1, errors)
    ∧ parsePathDoc d1 = Some (d2, paths)
    ∧ correlateEndpoint toPathSegments o r s = (s', Ok tt)
    ∧ heap s' !! endpoint ov = Some x'
    ∧ EndpointInput.Doc x' = d2
    ∧ EndpointInput.Errors x' = errors
    ∧ EndpointInput.Path x' = toPathSegments (Endpoint.Path r) paths
    ∧ EndpointInput.Name x' = Endpoint.Name r
    ∧ EndpointInput.Visibility x' = Endpoint.Access r
    ∧ EndpointInput.Language x' = "GO".
Proof.
  intros Hget Hx Hm.
  destruct (parseErrorDoc_total (Endpoint.Doc r)) as [[d1 errors] Hp1].
  destruct (parsePathDoc_total d1) as [[d2 paths] Hp2].
  pose proof (correlateEndpoint_run o r ov (d1, errors) (d2, paths) m ms x s
                Hget Hp1 Hp2 Hm) as Hrun.
  rewrite (put_id _ _ _ Hx) in Hrun at 1. rewrite Hrun.
  eexists d1, errors, d2, paths, _, _.
  split; [done|]. split; [done|]. split; [done|]. split; [apply put_lookup|]. done.
Qed.

(** X12 (the [case *api.Endpoint] of [parseCode]). Handling the same
    endpoint a second time changes nothing: the session after the second
    run is the session after the first. *)
Theorem endpoint_twice (o : overlays) (r : Endpoint.t PathT) (ov : overlay)
    (m : string) (ms : list string) x s :
  get o (Endpoint.File r) = Some ov →
  heap s !! endpoint ov = Some x →
  Endpoint.HTTPMethods r = m :: ms →
  ∃ s',
    correlateEndpoint toPathSegments o r s = (s', Ok tt)
    ∧ correlateEndpoint toPathSegments o r s' = (s', Ok tt).
Proof.
  intros Hget Hx Hm.
  destruct (parseErrorDoc_total (Endpoint.Doc r)) as [p1 Hp1].
  destruct (parsePathDoc_total p1.1) as [p2 Hp2].
  pose proof (correlateEndpoint_run o r ov p1 p2 m ms x s Hget Hp1 Hp2 Hm) as Hrun.
  rewrite (put_id _ _ _ Hx) in Hrun at 1. rewrite Hrun.
  eexists. split; [done|].
  rewrite (correlateEndpoint_run o r ov p1 p2 m ms _ s Hget Hp1 Hp2 Hm).
  do 2 f_equal. unfold endpointRecord, typeName. cbn.
  by destruct (deref (Endpoint.Request r)), (deref (Endpoint.Response r)).
Qed.

End Run.

Lemma endpoint_types_witness :
  ∃ s' x',
    correlateEndpoint keepPath oneTarget echo (mkSession oneRecord []) = (s', Ok tt)
    ∧ heap s' !! 0%nat = Some x'
    ∧ EndpointInput.Types x' = requestTypes echo ++ responseTypes echo
    ∧ (length (EndpointInput.Types x') ≤ 2)%nat
    ∧ EndpointInput.RequestType x' = "Foo"
    ∧ EndpointInput.ResponseType x' = "Foo".
Proof.
  apply (endpoint_types keepPath oneTarget echo (mkOverlay 0%nat) "GET" ["POST"]
           blank (mkSession oneRecord [])); reflexivity.
Defined.

Section Frame.
Context {PathT PathSegments ServiceInput : Type}.
Variable toPathSegments : PathT → gmap string string → PathSegments.
Implicit Types (s : @session PathSegments) (e : loc) (x : EndpointInput.t PathSegments).

Lemma steady_ret {A} keep (a : A) : steady (PathSegments := PathSegments) keep (ret a).
Proof. by intros s. Qed.

Lemma steady_try {A} keep (o : option A) :
  steady (PathSegments := PathSegments) keep (try o).
Proof. intros s. by destruct o. Qed.

Lemma steady_call {A} keep (c : collab A) :
  steady (PathSegments := PathSegments) keep (call c).
Proof. intros s. by destruct c. Qed.

Lemma steady_load {A} keep e (field : EndpointInput.t PathSegments → A) :
  steady keep (load e field).
Proof. intros s. unfold load. by destruct (heap s !! e). Qed.

Lemma steady_store (keep : loc → Prop) e
    (set : EndpointInput.t PathSegments → EndpointInput.t PathSegments) :
  ¬ keep e → steady keep (store e set).
Proof.
  intros He s. unfold store. destruct (heap s !! e) as [x|] eqn:Hx; [|done].
  cbn. split.
  - apply dom_insert_lookup_L. by exists x.
  - intros p Hp. apply lookup_insert_ne. by intros ->.
Qed.

Lemma steady_bind {A B} keep (m : @M PathSegments A) (k : A → M B) :
  steady keep m → (∀ a, steady keep (k a)) → steady keep (bind m k).
Proof.
  intros Hm Hk s. unfold bind. destruct (Hm s) as [Hd Hl].
  destruct (m s) as [s1 [a|v]]; cbn in Hd, Hl |- *; [|done].
  destruct (Hk a s1) as [Hd' Hl']. split; [congruence|].
  intros p Hp. by rewrite Hl', Hl.
Qed.

Lemma steady_forEach {A} keep (l : list A) (body : A → @M PathSegments unit) :
  (∀ a, steady keep (body a)) → steady keep (forEach l body).
Proof.
  intros Hbody. induction l as [|a l IH]; [apply steady_ret|].
  cbn. apply steady_bind; [apply Hbody|by intros _].
Qed.

Lemma steady_weaken {A} (keep keep' : loc → Prop) (m : @M PathSegments A) :
  (∀ p, keep' p → keep p) → steady keep m → steady keep' m.
Proof. intros Himp Hm s. destruct (Hm s) as [Hd Hl]. split; [done|]. auto. Qed.

Ltac steady_steps He :=
  repeat first
    [ apply steady_ret | apply steady_load | apply steady_try
    | apply steady_store; [exact He|]
    | apply steady_store; exact He
    | apply steady_bind; [|intros ?]
    | match goal with
      | |- steady _ (match ?x with _ => _ end) => destruct x
      | |- steady _ (if ?b then _ else _) => destruct b
      end ].

Lemma steady_correlateEndpoint (o : overlays) (r : Endpoint.t PathT) :
  steady (λ p, ∀ ov, get o (Endpoint.File r) = Some ov → endpoint ov ≠ p)
    (correlateEndpoint toPathSegments o r).
Proof.
  unfold correlateEndpoint.
  destruct (get o (Endpoint.File r)) as [ov|]; [|apply steady_ret].
  assert (He : ¬ ∀ ov0, Some ov = Some ov0 → endpoint ov0 ≠ endpoint ov)
    by (intros H; by apply (H ov)).
  unfold appendType. steady_steps He.
Qed.

Lemma steady_correlateTypeDecl (o : overlays) (d : TypeDecl.t) :
  steady (PathSegments := PathSegments)
    (λ p, ∀ ov, get o (TypeDecl.File d) = Some ov → endpoint ov ≠ p)
    (correlateTypeDecl o d).
Proof.
  unfold correlateTypeDecl.
  destruct (TypeDecl.Type_ d); try apply steady_ret.
  destruct (get o (TypeDecl.File d)) as [ov|]; [|apply steady_ret].
  assert (He : ¬ ∀ ov0, Some ov = Some ov0 → endpoint ov0 ≠ endpoint ov)
    by (intros H; by apply (H ov)).
  unfold appendType. steady_steps He.
Qed.

Lemma steady_pass (o : overlays) (services : list ServiceInput)
    (loading : collab unit) (pkgs : list (@packagePass PathT)) :
  steady (unclaimed o) (pass toPathSegments o services loading pkgs).
Proof.
  unfold pass. apply steady_bind; [apply steady_call|]. intros _.
  apply steady_bind; [|intros _; apply steady_ret].
  apply steady_forEach. intros p. unfold correlatePackage.
  apply steady_bind; [apply steady_call|]. intros found.
  apply steady_bind; [|intros _]; apply steady_forEach.
  - intros [r|]; [|apply steady_ret].
    eapply steady_weaken; [|apply steady_correlateEndpoint].
    intros p0 Hp ov Hov. by apply (Hp _ _ Hov).
  - intros [d|]; [|apply steady_ret].
    eapply steady_weaken; [|apply steady_correlateTypeDecl].
    intros p0 Hp ov Hov. by apply (Hp _ _ Hov).
Qed.

(** X15 (both [switch] cases of [parseCode]). Handling one declaration,
    endpoint or type declaration, leaves every record alone that is not
    the one of the overlay of the declaration's file; it creates and removes
    no record and reports no diagnostic, also when it stops with a run-time
    error. *)
Theorem declaration_frame (o : overlays) (s : @session PathSegments) (p : loc) :
  (∀ r : Endpoint.t PathT,
     (∀ ov, get o (Endpoint.File r) = Some ov → endpoint ov ≠ p) →
     heap (correlateEndpoint toPathSegments o r s).1 !! p = heap s !! p
     ∧ dom (heap (correlateEndpoint toPathSegments o r s).1) = dom (heap s)
     ∧ errs (correlateEndpoint toPathSegments o r s).1 = errs s)
  ∧ (∀ d : TypeDecl.t,
       (∀ ov, get o (TypeDecl.File d) = Some ov → endpoint ov ≠ p) →
       heap (correlateTypeDecl o d s).1 !! p = heap s !! p
       ∧ dom (heap (correlateTypeDecl o d s).1) = dom (heap s)
       ∧ errs (correlateTypeDecl o d s).1 = errs s).
Proof.
  split.
  - intros r Hp. destruct (steady_correlateEndpoint o r s) as [Hd Hl].
    split; [by apply Hl|]. split; [done|].
    apply (quiet_correlateEndpoint toPathSegments o r s).
  - intros d Hp. destruct (steady_correlateTypeDecl o d s) as [Hd Hl].
    split; [by apply Hl|]. split; [done|].
    apply (quiet_correlateTypeDecl o d s).
Qed.

(** X16 ([parseCode]). Whatever the run does (return, bailout, run-time
    error, failing [newOverlays]), the output records after it are behind
    the same pointers as before, and every record that no overlay points to
    is unchanged. *)
Theorem parseCode_frame (reraise : bool) (newOverlays : string + overlays)
    (services : list ServiceInput) (loading : collab unit)
    (pkgs : list (@packagePass PathT)) (h : gmap loc (EndpointInput.t PathSegments)) :
  dom (parseCode toPathSegments reraise newOverlays services loading pkgs h).1 = dom h
  ∧ ∀ p,
      match newOverlays with inr o => unclaimed o p | inl _ => True end →
      (parseCode toPathSegments reraise newOverlays services loading pkgs h).1 !! p
      = h !! p.
Proof.
  unfold parseCode. destruct newOverlays as [err|o]; [done|].
  destruct (steady_pass o services loading pkgs (mkSession h [])) as [Hd Hl].
  destruct (pass toPathSegments o services loading pkgs (mkSession h [])) as [s r].
  cbn in Hd, Hl.
  destruct r as [rtn|[|]]; [done|done|]. by destruct reraise.
Qed.

(** *** Where the pass stops *)

Lemma forEach_app {A} (l1 l2 : list A) (body : A → @M PathSegments unit) s :
  forEach (l1 ++ l2) body s = bind (forEach l1 body) (λ _, forEach l2 body) s.
Proof.
  revert s. induction l1 as [|a l1 IH]; intros s; [done|].
  cbn [app forEach]. unfold bind.
  destruct (body a s) as [s1 [[]|v]]; [|done]. by rewrite IH.
Qed.

Lemma forEach_bailout (o : overlays) (diags : list string)
    (post : list (@packagePass PathT)) s :
  forEach (BailsOut diags :: post) (correlatePackage toPathSegments o) s
  = (mkSession (heap s) (errs s ++ diags), Panic Bailout).
Proof. done. Qed.

(** X17 ([parseCode]). Packages that follow the one on which the parsing
    collaborator bails out are not looked at: the run gives the same records
    and the same outcome as if they were not there. *)
Theorem parseCode_stops_at_bailout (reraise : bool) (newOverlays : string + overlays)
    (services : list ServiceInput) (loading : collab unit)
    (pre post : list (@packagePass PathT)) (diags : list string)
    (h : gmap loc (EndpointInput.t PathSegments)) :
  parseCode toPathSegments reraise newOverlays services loading
    (pre ++ BailsOut diags :: post) h
  = parseCode toPathSegments reraise newOverlays services loading
      (pre ++ [BailsOut diags]) h.
Proof.
  unfold parseCode. destruct newOverlays as [err|o]; [done|].
  assert (Hpass : pass toPathSegments o services loading
                    (pre ++ BailsOut diags :: post) (mkSession h [])
                  = pass toPathSegments o services loading
                      (pre ++ [BailsOut diags]) (mkSession h [])).
  { unfold pass. unfold bind at 1 3.
    destruct (call loading (mkSession h [])) as [s1 [[]|v]]; [|done].
    unfold bind at 1 2. rewrite !forEach_app. unfold bind at 1 2.
    destruct (forEach pre (correlatePackage toPathSegments o) s1) as [s2 [[]|v]];
      [|done].
    by rewrite !forEach_bailout. }
  by rewrite Hpass.
Qed.

(** *** Declarations of files that are not claimed *)

Lemma forEach_same {A} (l : list A) (body : A → @M PathSegments unit) (P : A → Prop) s :
  (∀ a, P a → body a s = (s, Ok tt)) → Forall P l → forEach l body s = (s, Ok tt).
Proof.
  intros Hbody. induction 1 as [|a l Ha _ IH]; [done|].
  cbn. unfold bind. by rewrite (Hbody a Ha).
Qed.

Lemma correlatePackage_stray (o : overlays) (p : @packagePass PathT) s :
  strayPackage o p →
  heap (correlatePackage toPathSegments o p s).1 = heap s.
Proof.
  destruct p as [diags [resources decls]|diags]; [|done].
  intros [Hres Hdecls]. unfold correlatePackage. unfold bind at 1. cbn [call fst snd].
  unfold bind.
  rewrite (forEach_same resources _ (strayResource o)); [| |done].
  - by rewrite (forEach_same decls _ (strayDeclaration o));
      [| intros [d|] Hd; [cbn in Hd |- *; unfold correlateTypeDecl; rewrite Hd;
                          by destruct (TypeDecl.Type_ d) | done] | done].
  - intros [r|] Hr; [|done]. cbn in Hr |- *. unfold correlateEndpoint. by rewrite Hr.
Qed.

Lemma forEach_stray (o : overlays) (pkgs : list (@packagePass PathT)) :
  Forall (strayPackage o) pkgs →
  ∀ s, heap (forEach pkgs (correlatePackage toPathSegments o) s).1 = heap s.
Proof.
  induction 1 as [|p pkgs Hp _ IH]; intros s; [done|].
  cbn. unfold bind. pose proof (correlatePackage_stray o p s Hp) as Hheap.
  destruct (correlatePackage toPathSegments o p s) as [s1 [[]|v]]; cbn in Hheap.
  - by rewrite IH.
  - done.
Qed.

(** X18 ([parseCode]). When [newOverlays] succeeds and all declarations of
    all packages are of files that no overlay claims, the run leaves all
    output records as they were. *)
Theorem parseCode_stray (reraise : bool) (o : overlays)
    (services : list ServiceInput) (loading : collab unit)
    (pkgs : list (@packagePass PathT)) (h : gmap loc (EndpointInput.t PathSegments)) :
  Forall (strayPackage o) pkgs →
  (parseCode toPathSegments reraise (inr o) services loading pkgs h).1 = h.
Proof.
  intros Hstray. unfold parseCode.
  assert (Hheap : heap (pass toPathSegments o services loading pkgs (mkSession h [])).1 = h).
  { unfold pass. unfold bind at 1.
    destruct loading as [diags []|diags]; cbn [call]; [|done].
    unfold bind.
    pose proof (forEach_stray o pkgs Hstray (mkSession h ([] ++ diags))) as Hh.
    by destruct (forEach pkgs _ _) as [s [[]|v]]. }
  destruct (pass toPathSegments o services loading pkgs (mkSession h [])) as [s r].
  cbn in Hheap. subst h.
  destruct r as [rtn|[|]]; [done|done|]. by destruct reraise.
Qed.
End Frame.

Section Struct.
Context {PathSegments : Type}.
Implicit Types (s : @session PathSegments) (e : loc) (x : EndpointInput.t PathSegments).

Lemma containsName_true (types : list TypeInput.t) (name : string) :
  containsName types name = true ↔ name ∈ map TypeInput.Name types.
Proof.
  split.
  - intros Hc. destruct (decide (name ∈ map TypeInput.Name types)) as [|Hn]; [done|].
    assert (containsName types name = false); [|congruence].
    unfold containsName. apply not_true_is_false. intros (t & Ht & Heq)%existsb_exists.
    apply Hn. apply String.eqb_eq in Heq as <-. apply list_elem_of_fmap_2.
    by apply list_elem_of_In.
  - intros Hin. destruct (containsName types name) eqn:Hc; [done|].
    by apply containsName_false in Hc.
Qed.

Lemma correlateTypeDecl_run (o : overlays) (d : TypeDecl.t) (ov : overlay)
    (fields : list StructField.t) x s :
  get o (TypeDecl.File d) = Some ov →
  TypeDecl.Type_ d = StructType fields →
  correlateTypeDecl o d (put (endpoint ov) x s)
  = if containsName (EndpointInput.Types x) (TypeDecl.Name d)
    then (put (endpoint ov) x s, Ok tt)
    else (put (endpoint ov)
            (setTypes (EndpointInput.Types x
                         ++ [TypeInput.mk (TypeDecl.Name d) (TrimSpace (TypeDecl.Doc d))
                               (map structField fields)]) x) s, Ok tt).
Proof.
  intros Hget Htype. unfold correlateTypeDecl. rewrite Hget, Htype, load_bind.
  destruct (containsName _ _); [done|]. unfold appendType. by rewrite load_bind, store_put.
Qed.

Lemma correlateTypeDecl_other (o : overlays) (d : TypeDecl.t) s :
  (∀ fields, TypeDecl.Type_ d ≠ StructType fields) →
  correlateTypeDecl o d s = (s, Ok tt).
Proof.
  intros Hother. unfold correlateTypeDecl.
  destruct (TypeDecl.Type_ d) as [| |fields|]; try done. by destruct (Hother fields).
Qed.

(** X14 (the [case *schema.TypeDecl] of [parseCode]). For a type
    declaration of a claimed file the case ends normally and only ever adds
    at the end of [Types]: the records already there stay, in their order.
    When a record of that name is there already, the session is unchanged;
    when the declaration is a struct of a new name, exactly one record is
    appended, with the name, the trimmed doc and the fields of the
    declaration.  Names that were distinct stay distinct. *)
Theorem struct_first_wins (o : overlays) (d : TypeDecl.t) (ov : overlay) x s :
  get o (TypeDecl.File d) = Some ov →
  heap s !! endpoint ov = Some x →
  ∃ s' x',
    correlateTypeDecl o d s = (s', Ok tt)
    ∧ heap s' !! endpoint ov = Some x'
    ∧ (∃ added, EndpointInput.Types x' = EndpointInput.Types x ++ added)
    ∧ (TypeDecl.Name d ∈ typeNames x → s' = s)
    ∧ (∀ fields, TypeDecl.Type_ d = StructType fields → TypeDecl.Name d ∉ typeNames x →
         EndpointInput.Types x'
         = EndpointInput.Types x
           ++ [TypeInput.mk (TypeDecl.Name d) (TrimSpace (TypeDecl.Doc d))
                 (map structField fields)])
    ∧ (NoDup (typeNames x) → NoDup (typeNames x')).
Proof.
  intros Hget Hx.
  assert (Hkept : ∃ added, EndpointInput.Types x = EndpointInput.Types x ++ added).
  { exists []. by rewrite app_nil_r. }
  destruct (TypeDecl.Type_ d) as [t|name doc|fields|] eqn:Htype;
    [exists s, x; rewrite correlateTypeDecl_other by (intros ?; congruence); done ..
    | | exists s, x; rewrite correlateTypeDecl_other by (intros ?; congruence); done].
  pose proof (correlateTypeDecl_run o d ov fields x s Hget Htype) as Hrun.
  rewrite (put_id _ _ _ Hx) in Hrun.
  destruct (containsName (EndpointInput.Types x) (TypeDecl.Name d)) eqn:Hname.
  - apply containsName_true in Hname. exists s, x. repeat split; done.
  - pose proof (containsName_false _ _ Hname) as Hnew.
    eexists _, _. split; [exact Hrun|]. split; [apply put_lookup|].
    destruct x as [a1 a2 a3 a4 a5 a6 a7 types a9 a10]. unfold typeNames in *. cbn in *.
    split; [by eexists|]. split; [by intros ?|].
    split; [by intros fields' [= <-] _|].
    intros Hnodup. rewrite map_app. cbn.
    apply NoDup_app. split; [done|]. split; [|apply NoDup_singleton].
    by intros name Hin ->%list_elem_of_singleton.
Qed.
End Struct.

Lemma struct_first_wins_witness :
  ∃ s' x',
    correlateTypeDecl oneTarget fooDecl (mkSession {[0%nat := withFoo]} []) = (s', Ok tt)
    ∧ heap s' !! 0%nat = Some x'
    ∧ (∃ added, EndpointInput.Types x' = EndpointInput.Types withFoo ++ added)
    ∧ (TypeDecl.Name fooDecl ∈ typeNames withFoo → s' = mkSession {[0%nat := withFoo]} [])
    ∧ (∀ fields, TypeDecl.Type_ fooDecl = StructType fields →
         TypeDecl.Name fooDecl ∉ typeNames withFoo →
         EndpointInput.Types x'
         = EndpointInput.Types withFoo
           ++ [TypeInput.mk (TypeDecl.Name fooDecl) (TrimSpace (TypeDecl.Doc fooDecl))
                 (map structField fields)])
    ∧ (NoDup (typeNames withFoo) → NoDup (typeNames x')).
Proof.
  apply (struct_first_wins oneTarget fooDecl (mkOverlay 0%nat) withFoo
           (mkSession {[0%nat := withFoo]} [])); reflexivity.
Defined.

(** X19 ([parseCode] and its deferred function). What the caller can get
    of any run: either a result and a nil error, in which case [newOverlays]
    succeeded and the result holds the services that were passed in; or a
    nil result and the error of [newOverlays]; or a run-time error, and only
    when [perr.CatchBailout] raises again what is no bailout.  A bailout
    never reaches the caller. *)
Theorem parseCode_outcome {PathT PathSegments ServiceInput : Type}
    (toPathSegments : PathT → gmap string string → PathSegments) (reraise : bool)
    (newOverlays : string + overlays) (services : list ServiceInput)
    (loading : collab unit) (pkgs : list (@packagePass PathT))
    (h : gmap loc (EndpointInput.t PathSegments)) :
  match (parseCode toPathSegments reraise newOverlays services loading pkgs h).2 with
  | Returned (Some res) err =>
      err = None ∧ SyncResult.Services res = services
      ∧ ∃ o, newOverlays = inr o
  | Returned None err => ∃ e, err = Some e ∧ newOverlays = inl e
  | Panicked v => v = RuntimeError ∧ reraise = true
  end.
Proof.
  unfold parseCode. destruct newOverlays as [e|o]; cbn; [by exists e|].
  destruct (pass toPathSegments o services loading pkgs (mkSession h [])) as [s r] eqn:Hpass.
  destruct r as [rtn|[|]]; cbn.
  - rewrite (pass_result _ _ _ _ _ _ _ _ Hpass). by eauto.
  - by eauto.
  - destruct reraise; cbn; by eauto.
Qed.

Lemma endpoint_fields_witness :
  ∃ d1 errors d2 paths s' x',
    parseErrorDoc (Endpoint.Doc echo) = Some (d1, errors)
    ∧ parsePathDoc d1 = Some (d2, paths)
    ∧ correlateEndpoint keepPath oneTarget echo (mkSession oneRecord []) = (s', Ok tt)
    ∧ heap s' !! 0%nat = Some x'
    ∧ EndpointInput.Doc x' = d2
    ∧ EndpointInput.Errors x' = errors
    ∧ EndpointInput.Path x' = keepPath (Endpoint.Path echo) paths
    ∧ EndpointInput.Name x' = Endpoint.Name echo
    ∧ EndpointInput.Visibility x' = Endpoint.Access echo
    ∧ EndpointInput.Language x' = "GO".
Proof.
  apply (endpoint_fields keepPath oneTarget echo (mkOverlay 0%nat) "GET" ["POST"]
           blank (mkSession oneRecord [])); reflexivity.
Defined.

Lemma endpoint_twice_witness :
  ∃ s',
    correlateEndpoint keepPath oneTarget echo (mkSession oneRecord []) = (s', Ok tt)
    ∧ correlateEndpoint keepPath oneTarget echo s' = (s', Ok tt).
Proof.
  apply (endpoint_twice keepPath oneTarget echo (mkOverlay 0%nat) "GET" ["POST"]
           blank (mkSession oneRecord [])); reflexivity.
Defined.


Lemma declaration_frame_witness :
  let s := mkSession (<[1%nat := withFoo]> oneRecord) [] in
  heap (correlateEndpoint keepPath oneTarget echo s).1 !! 1%nat = heap s !! 1%nat
  ∧ dom (heap (correlateEndpoint keepPath oneTarget echo s).1) = dom (heap s)
  ∧ errs (correlateEndpoint keepPath oneTarget echo s).1 = errs s.
Proof.
  intros s.
  apply (proj1 (declaration_frame keepPath oneTarget
                  (mkSession (<[1%nat := withFoo]> oneRecord) []) 1%nat) echo).
  intros ov [= <-]. discriminate.
Defined.

Lemma parseCode_stray_witness :
  (parseCode keepPath true (inr oneTarget) ["svc"] (Returns [] tt)
     [Returns ["note"] ([EndpointResource stray], [TypeDeclaration strayDecl])]
     oneRecord).1 = oneRecord.
Proof.
  apply (parseCode_stray keepPath true oneTarget ["svc"] (Returns [] tt)
           [Returns ["note"] ([EndpointResource stray], [TypeDeclaration strayDecl])]
           oneRecord).
  repeat constructor.
Defined.

Lemma parseCode_frame_witness :
  (parseCode keepPath true (inr oneTarget) ["svc"] (Returns [] tt)
     [Returns [] ([EndpointResource echo], [TypeDeclaration fooDecl])]
     (<[1%nat := withFoo]> oneRecord)).1 !! 1%nat
  = (<[1%nat := withFoo]> oneRecord) !! 1%nat.
Proof.
  apply (proj2 (parseCode_frame keepPath true (inr oneTarget) ["svc"] (Returns [] tt)
                  [Returns [] ([EndpointResource echo], [TypeDeclaration fooDecl])]
                  (<[1%nat := withFoo]> oneRecord)) 1%nat).
  intros path ov Hget. unfold get, oneTarget in Hget. cbn in Hget.
  apply lookup_singleton_Some in Hget as [_ <-]. discriminate.
Defined.

Lemma Split_app (a b : string) (sep : ascii) :
  Split (a +:+ String sep b) sep = Split a sep ++ Split b sep.
Proof.
  induction a as [|c a IH].
  - change (Split (String sep b) sep = Split "" sep ++ Split b sep).
    cbn. by rewrite Ascii.eqb_refl.
  - change (Split (String c (a +:+ String sep b)) sep
            = Split (String c a) sep ++ Split b sep).
    cbn. destruct (Ascii.eqb c sep); [by rewrite IH|].
    rewrite IH. destruct (Split a sep) as [|piece pieces] eqn:Hs;
      [by destruct (Split_nonempty a sep)|]. done.
Qed.

Lemma Cut_after_bytes (s : string) (c : ascii) :
  c ∈ bytes (Cut s colon).1.2 → c ∈ bytes s.
Proof.
  induction s as [|a s IH]; cbn; [done|].
  destruct (Ascii.eqb a colon); [by right|].
  destruct (Cut s colon) as [[before after] found]. cbn in IH |- *.
  intros Hc. right. by apply IH.
Qed.

(** [start] stays or moves forward, and from [start] on every line that the
    loop visits is written trimmed. *)
Lemma scanPure_body (section : string) (rest : list string) :
  ∀ (i : Z) (prev : string) (s e : Z) out s' e',
    scanPure section i prev s e rest = (out, s', e') →
    (s' = s ∨ i <= s')
    ∧ (s = -1 ∨ s < i →
       ∀ (k : nat) x, out !! k = Some x → s' ≠ -1 → s' <= i + Z.of_nat k →
         ∃ l, rest !! k = Some l ∧ x = TrimSpace l).
Proof.
  induction rest as [|line rest IH]; intros i prev s e out s' e' Hp.
  - cbn in Hp. injection Hp as <- <- <-. split; [by left|]. by intros _ k x ?.
  - cbn [scanPure] in Hp.
    destruct (labelLine section line).
    + destruct (scanPure section (i + 1) (TrimSpace line) i i rest)
        as [[out1 s1] e1] eqn:Hrec.
      injection Hp as <- <- <-. destruct (IH _ _ _ _ _ _ _ Hrec) as [Hs Hout].
      split; [right; lia|]. intros _ [|k] x Hx Hfound Hk.
      * injection Hx as <-. by exists line.
      * apply (Hout ltac:(lia) k x Hx Hfound). lia.
    + destruct (s =? -1) eqn:Hs1.
      * apply Z.eqb_eq in Hs1 as ->.
        destruct (scanPure section (i + 1) line (-1) i rest) as [[out1 s1] e1] eqn:Hrec.
        injection Hp as <- <- <-. destruct (IH _ _ _ _ _ _ _ Hrec) as [Hs Hout].
        split; [destruct Hs; [by left|right; lia]|].
        intros _ [|k] x Hx Hfound Hk; [lia|].
        apply (Hout ltac:(by left) k x Hx Hfound). lia.
      * apply Z.eqb_neq in Hs1.
        destruct (String.eqb line "" && String.eqb prev "").
        -- injection Hp as <- <- <-. split; [by left|].
           intros _ [|k] x Hx _ _; [|done]. injection Hx as <-. by exists line.
        -- destruct (scanPure section (i + 1) (TrimSpace line) s
                       (if terminator line then i - 1 else i) rest)
             as [[out1 s1] e1] eqn:Hrec.
           injection Hp as <- <- <-. destruct (IH _ _ _ _ _ _ _ Hrec) as [Hs Hout].
           split; [destruct Hs; [by left|right; lia]|].
           intros Hlt [|k] x Hx Hfound Hk.
           ++ injection Hx as <-. by exists line.
           ++ apply (Hout ltac:(lia) k x Hx Hfound). lia.
Qed.

Lemma tidy_one (l : string) : oneLine l → tidy (TrimSpace l).
Proof.
  intros Hl. apply TrimSpace_oneLine in Hl. unfold tidy. rewrite Hl.
  split; [|by constructor]. constructor; [apply TrimSpace_idemp|done].
Qed.

Lemma tidy_append (d line : string) :
  tidy d → oneLine line → TrimSpace line = line → line ≠ "" →
  tidy (d +:+ String LF line).
Proof.
  intros [Htrim Hfull] Hone Hline Hne. unfold tidy. rewrite Split_app, Hone.
  split; [apply Forall_app; split; [done|by constructor]|].
  destruct (Split d LF) as [|piece pieces] eqn:Hs; [by destruct (Split_nonempty d LF)|].
  cbn in *. apply Forall_app. split; [done|by constructor].
Qed.

Lemma entryStep_docs (errs errs' : list DocEntry.t) (line : string) :
  oneLine line → TrimSpace line = line →
  Forall (λ e, tidy (DocEntry.Doc e)) errs →
  entryStep errs line = Some errs' →
  Forall (λ e, tidy (DocEntry.Doc e)) errs'.
Proof.
  intros Hone Hline Herrs. unfold entryStep.
  pose proof (Cut_after_bytes line) as Hafter.
  destruct (Cut line colon) as [[key doc] ok]. cbn in Hafter |- *.
  destruct ok.
  - intros [= <-]. apply Forall_app. split; [done|]. constructor; [|done].
    cbn. apply tidy_one. apply oneLine_bytes. intros Hc.
    apply oneLine_bytes in Hone. by apply Hone, Hafter.
  - destruct (0 <? Z.of_nat (length errs)); cbn [andb]; [|by intros [= <-]].
    destruct (String.eqb line "") eqn:Hempty; cbn [negb]; [by intros [= <-]|].
    apply String.eqb_neq in Hempty.
    unfold appendDoc, index, assign.
    destruct (Z.of_nat (length errs) - 1 <? 0); [done|].
    destruct (errs !! Z.to_nat (Z.of_nat (length errs) - 1)) as [e|] eqn:He; [|done].
    cbn. destruct (_ && _); [|done]. intros [= <-].
    apply Forall_insert; [done|]. cbn. apply tidy_append; try done.
    rewrite Forall_forall in Herrs. apply Herrs. by eapply list_elem_of_lookup_2.
Qed.

Lemma entryLoop_docs (ls : list string) :
  Forall (λ l, oneLine l ∧ TrimSpace l = l) ls →
  ∀ errs errs',
    Forall (λ e, tidy (DocEntry.Doc e)) errs →
    entryLoop errs ls = Some errs' →
    Forall (λ e, tidy (DocEntry.Doc e)) errs'.
Proof.
  induction 1 as [|line ls [Hone Hline] _ IH]; intros errs errs' Herrs.
  - by intros [= <-].
  - cbn [entryLoop]. destruct (entryStep errs line) as [errs1|] eqn:Hstep; [|done].
    cbn. apply IH. by eapply entryStep_docs.
Qed.

(** X20 ([parseDocSection]). For every text and label the function returns,
    and every line of the doc of every entry it returns is trimmed; only the
    first line of a doc, what follows the colon, can be empty: the lines
    that the second loop appends are not. *)
Theorem parseDocSection_docs (doc section : string) :
  ∃ r errs,
    parseDocSection doc section = Some (r, errs)
    ∧ Forall (λ e, Forall (λ l, TrimSpace l = l) (Split (DocEntry.Doc e) LF)
                   ∧ Forall (λ l, l ≠ "") (tail (Split (DocEntry.Doc e) LF))) errs.
Proof.
  unfold parseDocSection.
  destruct (scanPure section 0 "" (-1) (-1) (Split doc LF)) as [[out s] e] eqn:Hp.
  rewrite (parseLines_pure _ _ _ _ _ _ Hp).
  destruct (s =? -1) eqn:Hs; [by exists doc, []|]. apply Z.eqb_neq in Hs.
  set (body := take (Z.to_nat (e - s)) (drop (Z.to_nat (s + 1)) out)).
  destruct (entryLoop_total body []) as [errs Hloop]. rewrite Hloop.
  eexists _, errs. split; [done|].
  apply (entryLoop_docs body) with (errs := []); [|done|done].
  apply Forall_forall. intros line Hline.
  unfold body in Hline. apply subseteq_take in Hline.
  apply list_elem_of_lookup in Hline as [k Hk]. rewrite lookup_drop in Hk.
  destruct (scanPure_body _ _ _ _ _ _ _ _ _ Hp) as [Hstart Hout].
  destruct (Hout ltac:(by left) _ _ Hk Hs ltac:(lia)) as (l & Hl & ->).
  pose proof (Split_pieces doc LF) as Hone. rewrite Forall_forall in Hone.
  split; [|apply TrimSpace_idemp].
  apply TrimSpace_oneLine, Hone. by eapply list_elem_of_lookup_2.
Qed.

Section Package.
Context {PathT PathSegments : Type}.
Variable toPathSegments : PathT → gmap string string → PathSegments.
Implicit Types (s : @session PathSegments) (e : loc) (x : EndpointInput.t PathSegments).

Lemma put_put e x y s : put e y (put e x s) = put e y s.
Proof. unfold put. cbn. by rewrite insert_insert_eq. Qed.

(** X21 (the [case *api.Endpoint] of [parseCode], twice on one record).
    Two endpoints of the same claimed file write to the same record, and the
    second one wins: name, method and [Types] are those of the second
    endpoint.  [RequestType] and [ResponseType] are the second endpoint's
    when its type is a named type behind its pointers, and are left as the
    first endpoint set them when it is not. *)
Theorem endpoint_last_wins (o : overlays) (r1 r2 : Endpoint.t PathT) (ov : overlay)
    (m1 m2 : string) (ms1 ms2 : list string) x s :
  get o (Endpoint.File r1) = Some ov →
  get o (Endpoint.File r2) = Some ov →
  heap s !! endpoint ov = Some x →
  Endpoint.HTTPMethods r1 = m1 :: ms1 →
  Endpoint.HTTPMethods r2 = m2 :: ms2 →
  ∃ s' x',
    forEach [EndpointResource r1; EndpointResource r2]
      (correlateResource toPathSegments o) s = (s', Ok tt)
    ∧ heap s' !! endpoint ov = Some x'
    ∧ EndpointInput.Name x' = Endpoint.Name r2
    ∧ EndpointInput.Method x' = m2
    ∧ EndpointInput.Types x' = requestTypes r2 ++ responseTypes r2
    ∧ EndpointInput.RequestType x'
      = typeName (Endpoint.Request r2)
          (typeName (Endpoint.Request r1) (EndpointInput.RequestType x))
    ∧ EndpointInput.ResponseType x'
      = typeName (Endpoint.Response r2)
          (typeName (Endpoint.Response r1) (EndpointInput.ResponseType x)).
Proof.
  intros Hget1 Hget2 Hx Hm1 Hm2.
  destruct (parseErrorDoc_total (Endpoint.Doc r1)) as [p1 Hp1].
  destruct (parsePathDoc_total p1.1) as [p2 Hp2].
  destruct (parseErrorDoc_total (Endpoint.Doc r2)) as [q1 Hq1].
  destruct (parsePathDoc_total q1.1) as [q2 Hq2].
  pose proof (correlateEndpoint_run toPathSegments o r1 ov p1 p2 m1 ms1 x s
                Hget1 Hp1 Hp2 Hm1) as Hrun1.
  rewrite (put_id _ _ _ Hx) in Hrun1 at 1.
  pose proof (correlateEndpoint_run toPathSegments o r2 ov q1 q2 m2 ms2
                (endpointRecord toPathSegments r1 x p1 p2 m1) s
                Hget2 Hq1 Hq2 Hm2) as Hrun2.
  cbn [forEach correlateResource]. unfold bind. rewrite Hrun1, Hrun2.
  eexists _, _. split; [done|]. split; [apply put_lookup|]. done.
Qed.

(** X22 (one package of the loop of [parseCode]). For a package with an
    endpoint and a struct declaration of the same claimed file, [Types] ends
    as the records of the endpoint's request and response followed by the
    record of the struct, and without the latter when the request or the
    response already has the name of the struct. *)
Theorem struct_after_endpoint (o : overlays) (r : Endpoint.t PathT) (d : TypeDecl.t)
    (ov : overlay) (m : string) (ms : list string) (fields : list StructField.t)
    (diags : list string) x s :
  get o (Endpoint.File r) = Some ov →
  get o (TypeDecl.File d) = Some ov →
  heap s !! endpoint ov = Some x →
  Endpoint.HTTPMethods r = m :: ms →
  TypeDecl.Type_ d = StructType fields →
  ∃ s' x',
    correlatePackage toPathSegments o
      (Returns diags ([EndpointResource r], [TypeDeclaration d])) s = (s', Ok tt)
    ∧ heap s' !! endpoint ov = Some x'
    ∧ EndpointInput.Types x'
      = requestTypes r ++ responseTypes r
        ++ (if bool_decide (TypeDecl.Name d
                              ∈ map TypeInput.Name (requestTypes r ++ responseTypes r))
            then []
            else [TypeInput.mk (TypeDecl.Name d) (TrimSpace (TypeDecl.Doc d))
                    (map structField fields)]).
Proof.
  intros Hgetr Hgetd Hx Hm Htype.
  destruct (parseErrorDoc_total (Endpoint.Doc r)) as [p1 Hp1].
  destruct (parsePathDoc_total p1.1) as [p2 Hp2].
  set (s0 := mkSession (heap s) (errs s ++ diags)).
  pose proof (correlateEndpoint_run toPathSegments o r ov p1 p2 m ms x s0
                Hgetr Hp1 Hp2 Hm) as Hrun1.
  rewrite (put_id _ _ s0 Hx) in Hrun1 at 1.
  pose proof (correlateTypeDecl_run o d ov fields
                (endpointRecord toPathSegments r x p1 p2 m) s0 Hgetd Htype) as Hrun2.
  unfold correlatePackage. unfold bind at 1. cbn [call fst snd].
  fold s0. cbn [forEach correlateResource correlateDecl]. unfold bind.
  rewrite Hrun1. cbn [ret]. rewrite Hrun2. cbn [endpointRecord EndpointInput.Types].
  destruct (containsName _ _) eqn:Hname.
  - apply containsName_true in Hname. rewrite bool_decide_eq_true_2 by done.
    eexists _, _. split; [done|]. split; [apply put_lookup|]. cbn.
    by rewrite app_nil_r.
  - apply containsName_false in Hname. rewrite bool_decide_eq_false_2 by done.
    eexists _, _. split; [done|]. split; [apply put_lookup|]. cbn.
    by rewrite app_assoc.
Qed.
End Package.

Lemma endpoint_last_wins_witness :
  ∃ s' x',
    forEach [EndpointResource echo; EndpointResource ping]
      (correlateResource keepPath oneTarget) (mkSession oneRecord []) = (s', Ok tt)
    ∧ heap s' !! 0%nat = Some x'
    ∧ EndpointInput.Name x' = "Ping"
    ∧ EndpointInput.Method x' = "PUT"
    ∧ EndpointInput.Types x' = []
    ∧ EndpointInput.RequestType x' = "Foo"
    ∧ EndpointInput.ResponseType x' = "Foo".
Proof.
  apply (endpoint_last_wins keepPath oneTarget echo ping (mkOverlay 0%nat)
           "GET" "PUT" ["POST"] [] blank (mkSession oneRecord [])); reflexivity.
Defined.

Lemma struct_after_endpoint_witness :
  ∃ s' x',
    correlatePackage keepPath oneTarget
      (Returns ["note"] ([EndpointResource ping], [TypeDeclaration fooDecl]))
      (mkSession oneRecord []) = (s', Ok tt)
    ∧ heap s' !! 0%nat = Some x'
    ∧ EndpointInput.Types x'
      = [TypeInput.mk "Foo" "" [TypeFieldInput.mk "ID" "" "" "string" "the id"]].
Proof.
  apply (struct_after_endpoint keepPath oneTarget ping fooDecl (mkOverlay 0%nat)
           "PUT" [] [StructField.mk "ID" "string" " the id "] ["note"] blank
           (mkSession oneRecord [])); reflexivity.
Defined.
